(** * Document content adapter: TipTap normalisation and JSON Patch orchestration

    A shallow embedding of
    [src/studio/backend/src/adapters/document_content_adapter.py].

    - JSON values are an inductive type; a Python [dict] with string keys is a
      [gmap string json], so that equality of trees is the order-insensitive
      deep equality of Python dictionaries.
    - A Python call either returns a value or raises: [result].
    - The adapter's methods read and write one table; they are functions in a
      small state-and-exception monad over the table, [io].
    - [json.dumps] / [json.loads] and [jsonpatch.apply_patch] are libraries;
      the adapter is parametric in them ([JsonText], [JsonPatch]). *)

From Stdlib Require Import ZArith Ascii String Floats.SpecFloat.
From stdpp Require Import gmap strings list fin_maps.

#[local] Set Warnings "-register-all".
#[local] Open Scope string_scope.

(** ** JSON values *)

Inductive json : Type :=
  | JNull
  | JBool (b : bool)
  | JInt (n : Z)
  | JFloat (f : spec_float)
  | JStr (s : string)
  | JList (l : list json)
  | JObj (m : gmap string json).

(** Nesting depth; bounds the recursion of the normaliser. *)
Fixpoint depth (j : json) : nat :=
  match j with
  | JList l => S (foldr (λ c acc, depth c `max` acc) 0 l)
  | JObj m => S (map_fold (λ _ c acc, depth c `max` acc) 0 m)
  | _ => 0
  end.

(** Python truth value of a JSON value ([bool(v)]). *)
Definition truthy (v : json) : bool :=
  match v with
  | JNull => false
  | JBool b => b
  | JInt n => negb (n =? 0)%Z
  | JFloat (S754_zero _) => false
  | JFloat _ => true
  | JStr s => negb (String.eqb s "")
  | JList l => negb (bool_decide (l = []))
  | JObj m => negb (bool_decide (m = ∅))
  end.

(** [a or b] *)
Definition py_or (a b : json) : json := if truthy a then a else b.

(** [isinstance(v, dict)] and [isinstance(v, list)] *)
Definition is_dict (v : json) : bool :=
  match v with JObj _ => true | _ => false end.

Definition is_list (v : json) : bool :=
  match v with JList _ => true | _ => false end.

(** [d.get(k)]: the member, or [None] when it is missing. *)
Definition dict_get (d : gmap string json) (k : string) : json :=
  default JNull (d !! k).

(** [k in d] *)
Definition dict_contains (k : string) (d : gmap string json) : bool :=
  match d !! k with Some _ => true | None => false end.

(** ** Outcomes of a Python call *)

Inductive jsonpatch_error : Type :=
  | InvalidJsonPatch
  | JsonPatchConflict
  | JsonPatchTestFailed.

Inductive exn : Type :=
  | TypeError (msg : string)
  | ValueError (msg : string)
  | RecursionError
  | JSONDecodeError
  | JsonPointerException (msg : string)
  | JsonPatchException (kind : jsonpatch_error) (msg : string).

Inductive result (A : Type) : Type :=
  | Returns (a : A)
  | Raises (e : exn).
Arguments Returns {A} a.
Arguments Raises {A} e.

#[global] Instance result_ret : MRet result := @Returns.
#[global] Instance result_bind : MBind result := λ A B f r,
  match r with
  | Returns a => f a
  | Raises e => Raises e
  end.

(** ** The normaliser *)

Definition _TIPTAP_NODES_WITH_CONTENT : list string :=
  ["doc"; "paragraph"; "heading"; "bulletList"; "orderedList"; "listItem";
   "blockquote"; "codeBlock"; "codeBlockLeaf"].

Definition text_leaf : json :=
  JObj (<["type" := JStr "text"]> (<["text" := JStr ""]> ∅)).

Definition _INLINE_DEFAULT_CONTENT : json := JList [text_leaf].

(** [v in s] for a frozenset [s] of strings: the value is hashed first, so a
    list or a dict raises; a value that is not a string equals no member. *)
Definition frozenset_contains (v : json) (s : list string) : result bool :=
  match v with
  | JList _ => Raises (TypeError "unhashable type: 'list'")
  | JObj _ => Raises (TypeError "unhashable type: 'dict'")
  | JStr x => Returns (bool_decide (x ∈ s))
  | _ => Returns false
  end.

(** [v in t] for a tuple [t] of strings: plain equality, nothing is hashed. *)
Definition tuple_contains (v : json) (t : list string) : bool :=
  match v with
  | JStr x => bool_decide (x ∈ t)
  | _ => false
  end.

(** The body of [_ensure_tiptap_content], with the recursive call as [self].
    [copy.deepcopy] is the identity on values. *)
Definition ensure_body (self : json → result json) (doc : json) : result json :=
  match doc with
  | JNull => Returns JNull
  | JObj d =>
      let out := d in
      let node_type := py_or (dict_get out "type") (JStr "") in
      is_node ← frozenset_contains node_type _TIPTAP_NODES_WITH_CONTENT;
      let out :=
        if is_node && negb (dict_contains "content" out) then
          if tuple_contains node_type ["paragraph"; "heading"]
          then <["content" := _INLINE_DEFAULT_CONTENT]> out
          else <["content" := JList []]> out
        else out in
      match out !! "content" with
      | Some (JList cs) =>
          cs' ← mapM self cs;
          Returns (JObj (<["content" := JList cs']> out))
      | _ => Returns (JObj out)
      end
  | _ => Returns doc
  end.

(** The recursion under a recursion limit: [limit] is the number of nested
    calls the interpreter's stack affords the normaliser; a call that would
    go beyond it raises [RecursionError], as Python does on documents nested
    too deeply. *)
Fixpoint ensure_fuel (limit : nat) (doc : json) : result json :=
  match limit with
  | O => Raises RecursionError
  | S n => ensure_body (ensure_fuel n) doc
  end.

(** The normaliser on a stack that affords the document: the limit
    [S (depth doc)] is never reached ([ensure_fuel_enough]), and the function
    satisfies the source's recursive equation
    ([ensure_tiptap_content_unfold]). What it returns or raises is what
    [ensure_fuel limit] does for every [limit] above the depth of the
    document; statements about documents of any depth under a given limit
    are made on [ensure_fuel]. *)
Definition _ensure_tiptap_content (doc : json) : result json :=
  ensure_fuel (S (depth doc)) doc.

(** *** Nodes of a document *)

(** The type tag as the normaliser reads it. *)
Definition node_type (d : gmap string json) : json :=
  py_or (dict_get d "type") (JStr "").

Definition is_container (d : gmap string json) : bool :=
  tuple_contains (node_type d) _TIPTAP_NODES_WITH_CONTENT.

Definition is_inline (d : gmap string json) : bool :=
  tuple_contains (node_type d) ["paragraph"; "heading"].

(** The value reached from [t] by descending through [content] sequences at
    the given child indices. *)
Fixpoint node_at (t : json) (p : list nat) : option json :=
  match p with
  | [] => Some t
  | i :: p =>
      match t with
      | JObj d =>
          match d !! "content" with
          | Some (JList cs) => c ← cs !! i; node_at c p
          | _ => None
          end
      | _ => None
      end
  end.

(** Every node the normaliser visits has a type tag it can hash. *)
Definition hashable (v : json) : bool :=
  match v with JList _ | JObj _ => false | _ => true end.

Definition tags_hashable (t : json) : Prop :=
  ∀ p d, node_at t p = Some (JObj d) → hashable (node_type d) = true.

(** ** Libraries the adapter calls *)

(** Python's [json] module: [json.dumps] turns a tree into text, [json.loads]
    parses text and raises on text that is not JSON; [text_nonempty] is the
    truth value of a text (it is not empty). *)
Class JsonText : Type := {
  text : Type;
  json_dumps : json → text;
  json_loads : text → result json;
  text_nonempty : text → bool;
}.

(** [jsonpatch.apply_patch(doc, patch)]: the patched copy of [doc], or an
    exception. *)
Class JsonPatch : Type := {
  apply_patch : json → list json → result json;
}.

(** ** The table [document_content] and the adapter *)

Section adapter.
Context `{JsonText}.

(** What the driver hands back for the [content] column: a decoded object
    or the stored text. *)
Inductive raw : Type :=
  | RawDict (d : gmap string json)
  | RawText (s : text).

(** A row: [content], [updated_at]; the key [document_id] is the map key. *)
Record row : Type := Row { content : raw; updated_at : Z }.

(** Calls that read and write the table and may raise. *)
Definition io (A : Type) : Type := gmap Z row → result A * gmap Z row.

#[global] Instance io_ret : MRet io := λ A a db, (Returns a, db).
#[global] Instance io_bind : MBind io := λ A B f m db,
  match m db with
  | (Returns a, db') => f a db'
  | (Raises e, db') => (Raises e, db')
  end.

Definition lift {A} (r : result A) : io A := λ db, (r, db).
Definition raise {A} (e : exn) : io A := λ db, (Raises e, db).
Definition try_except {A} (m : io A) (handler : exn → io A) : io A := λ db,
  match m db with
  | (Raises e, db') => handler e db'
  | ok => ok
  end.

(** [SELECT content FROM document_content WHERE document_id = %s] *)
Definition get_content (document_id : Z) : io json := λ db,
  match db !! document_id with
  | None => (Returns (JObj ∅), db)
  | Some r =>
      match content r with
      | RawDict d => (Returns (JObj d), db)
      | RawText raw =>
          if text_nonempty raw then (json_loads raw, db)
          else (Returns (JObj ∅), db)
      end
  end.

(** [INSERT ... ON DUPLICATE KEY UPDATE]; [now] is the clock reading. *)
Definition set_content (document_id : Z) (content : json) (now : Z) : io () :=
  λ db,
  let payload := match content with JNull => JObj ∅ | _ => content end in
  let content_json := json_dumps payload in
  (Returns (), <[document_id := Row (RawText content_json) now]> db).

(** [DELETE FROM document_content WHERE document_id = %s] *)
Definition delete_content (document_id : Z) : io () := λ db,
  (Returns (), delete document_id db).

Context `{JsonPatch}.

Definition patch_failed (cause : string) : exn :=
  ValueError ("JSON Patch 应用失败: " ++ cause).

Definition result_not_object : exn :=
  ValueError "Patch 结果必须为 JSON 对象".

Definition patch_content (document_id : Z) (patch_operations : list json)
    (now : Z) : io json :=
  current ← get_content document_id;
  current ← lift (if truthy current then _ensure_tiptap_content current
                  else Returns (JObj ∅));
  new_content ←
    try_except (lift (apply_patch current patch_operations))
      (λ e, match e with
            | JsonPatchException _ msg => raise (patch_failed msg)
            | _ => raise e
            end);
  if negb (is_dict new_content) then raise result_not_object
  else
    _ ← set_content document_id new_content now;
    mret new_content.
End adapter.

(** ** Models of the libraries *)

#[global] Instance spec_float_eq_dec : EqDecision spec_float.
Proof. solve_decision. Defined.

(** Structural equality of trees, as a test. *)
Fixpoint json_eqb (a b : json) : bool :=
  match a, b with
  | JNull, JNull => true
  | JBool x, JBool y => bool_decide (x = y)
  | JInt x, JInt y => bool_decide (x = y)
  | JFloat x, JFloat y => bool_decide (x = y)
  | JStr x, JStr y => bool_decide (x = y)
  | JList xs, JList ys =>
      (fix go (xs ys : list json) : bool :=
         match xs, ys with
         | [], [] => true
         | x :: xs, y :: ys => json_eqb x y && go xs ys
         | _, _ => false
         end) xs ys
  | JObj m1, JObj m2 =>
      bool_decide (dom m1 = dom m2) &&
      map_fold (λ k v acc,
                  acc && match m2 !! k with
                         | Some w => json_eqb v w
                         | None => false
                         end) true m1
  | _, _ => false
  end.

(** A text that is the tree itself: the simplest [json] module that parses
    back what it printed. It instantiates [JsonText] in the examples. *)
Definition tree_text : JsonText :=
  {| text := json;
     json_dumps := id;
     json_loads := Returns;
     text_nonempty := λ _, true |}.

(** Modelled from the spec: the repository calls the third-party package
    [jsonpatch], whose code it does not contain. The module follows the
    patch engine of section 4.2 of the specification: an ordered sequence of
    add, remove, replace, move, copy and test operations, each addressed by a
    path of member names and sequence indices, applied to a copy of the
    document; the first failure aborts the batch. Failures of path
    resolution are [JsonPointerException]s, the others are
    [JsonPatchException]s, as in the package. *)
Module rfc6902.

(** *** Paths: JSON Pointer (RFC 6901) *)

Fixpoint split_path (s : string) : list string :=
  match s with
  | EmptyString => [EmptyString]
  | String c s' =>
      if Ascii.eqb c "/"%char then EmptyString :: split_path s'
      else match split_path s' with
           | t :: ts => String c t :: ts
           | [] => [String c EmptyString]
           end
  end.

Fixpoint unescape (s : string) : string :=
  match s with
  | String c r =>
      match r with
      | String c' r' =>
          if Ascii.eqb c "~"%char && Ascii.eqb c' "1"%char
          then String "/"%char (unescape r')
          else if Ascii.eqb c "~"%char && Ascii.eqb c' "0"%char
          then String "~"%char (unescape r')
          else String c (unescape r)
      | EmptyString => s
      end
  | EmptyString => EmptyString
  end.

Definition parse_pointer (p : string) : result (list string) :=
  match p with
  | EmptyString => Returns []
  | String c rest =>
      if Ascii.eqb c "/"%char then Returns (unescape <$> split_path rest)
      else Raises (JsonPointerException "Location must start with /")
  end.

Definition digit (c : Ascii.ascii) : option nat :=
  let n := Ascii.nat_of_ascii c in
  if (48 <=? n)%nat && (n <=? 57)%nat then Some (n - 48)%nat else None.

Fixpoint digits (s : string) (acc : nat) : option nat :=
  match s with
  | EmptyString => Some acc
  | String c r => d ← digit c; digits r (10 * acc + d)%nat
  end.

(** A sequence index: [0], or digits without a leading zero. *)
Definition array_index (tok : string) : option nat :=
  match tok with
  | EmptyString => None
  | String c r =>
      if Ascii.eqb c "0"%char && negb (String.eqb r "") then None else digits tok 0
  end.

Definition not_an_index (tok : string) : exn :=
  JsonPointerException ("'" ++ tok ++ "' is not a valid sequence index").

(** One step down: a member of an object or an element of a sequence. *)
Definition walk (doc : json) (tok : string) : result json :=
  match doc with
  | JObj d =>
      match d !! tok with
      | Some c => Returns c
      | None => Raises (JsonPointerException ("member '" ++ tok ++ "' not found"))
      end
  | JList l =>
      match array_index tok with
      | Some i =>
          match l !! i with
          | Some c => Returns c
          | None =>
              Raises (JsonPointerException ("index '" ++ tok ++ "' is out of bounds"))
          end
      | None => Raises (not_an_index tok)
      end
  | _ => Raises (JsonPointerException "document does not support indexing")
  end.

Fixpoint resolve (ptr : list string) (doc : json) : result json :=
  match ptr with
  | [] => Returns doc
  | tok :: ptr => c ← walk doc tok; resolve ptr c
  end.

(** Store [c] back where [walk doc tok] found a value. *)
Definition put (doc : json) (tok : string) (c : json) : json :=
  match doc with
  | JObj d => JObj (<[tok := c]> d)
  | JList l =>
      match array_index tok with
      | Some i => JList (<[i := c]> l)
      | None => doc
      end
  | _ => doc
  end.

(** Walk to the parent of the last segment and rewrite it with [last]. *)
Fixpoint at_parent (tok : string) (ptr : list string)
    (last : string → json → result json) (doc : json) : result json :=
  match ptr with
  | [] => last tok doc
  | tok' :: ptr' =>
      c ← walk doc tok;
      c' ← at_parent tok' ptr' last c;
      Returns (put doc tok c')
  end.

(** *** The six operations (RFC 6902) *)

Definition conflict (msg : string) : exn :=
  JsonPatchException JsonPatchConflict msg.

Definition add_last (v : json) (tok : string) (doc : json) : result json :=
  match doc with
  | JObj d => Returns (JObj (<[tok := v]> d))
  | JList l =>
      if String.eqb tok "-" then Returns (JList (l ++ [v]))
      else match array_index tok with
           | Some i =>
               if (i <=? length l)%nat
               then Returns (JList (take i l ++ v :: drop i l))
               else Raises (conflict "can't insert outside of list")
           | None => Raises (not_an_index tok)
           end
  | _ => Raises (conflict "unable to fully resolve json pointer")
  end.

Definition remove_last (tok : string) (doc : json) : result json :=
  match doc with
  | JObj d =>
      if dict_contains tok d then Returns (JObj (delete tok d))
      else Raises (conflict "can't remove a non-existent object")
  | JList l =>
      match array_index tok with
      | Some i =>
          if (i <? length l)%nat then Returns (JList (delete i l))
          else Raises (conflict "can't remove a non-existent object")
      | None => Raises (not_an_index tok)
      end
  | _ => Raises (conflict "unable to fully resolve json pointer")
  end.

Definition replace_last (v : json) (tok : string) (doc : json) : result json :=
  match doc with
  | JObj d =>
      if dict_contains tok d then Returns (JObj (<[tok := v]> d))
      else Raises (conflict "can't replace a non-existent object")
  | JList l =>
      match array_index tok with
      | Some i =>
          if (i <? length l)%nat then Returns (JList (<[i := v]> l))
          else Raises (conflict "can't replace outside of list")
      | None => Raises (not_an_index tok)
      end
  | _ => Raises (conflict "unable to fully resolve json pointer")
  end.

Definition op_add (ptr : list string) (v doc : json) : result json :=
  match ptr with
  | [] => Returns v
  | tok :: ptr => at_parent tok ptr (add_last v) doc
  end.

Definition op_remove (ptr : list string) (doc : json) : result json :=
  match ptr with
  | [] => Raises (conflict "can't remove the document root")
  | tok :: ptr => at_parent tok ptr remove_last doc
  end.

Definition op_replace (ptr : list string) (v doc : json) : result json :=
  match ptr with
  | [] => Returns v
  | tok :: ptr => at_parent tok ptr (replace_last v) doc
  end.

Definition op_move (from ptr : list string) (doc : json) : result json :=
  v ← resolve from doc;
  if bool_decide (from = ptr) then Returns doc
  else doc' ← op_remove from doc; op_add ptr v doc'.

Definition op_copy (from ptr : list string) (doc : json) : result json :=
  v ← resolve from doc;
  op_add ptr v doc.

Definition test_failed : exn :=
  JsonPatchException JsonPatchTestFailed "test failed".

Definition op_test (ptr : list string) (v doc : json) : result json :=
  match resolve ptr doc with
  | Returns w => if json_eqb w v then Returns doc else Raises test_failed
  | Raises _ => Raises test_failed
  end.

(** *** Reading an operation object *)

Definition invalid (msg : string) : exn :=
  JsonPatchException InvalidJsonPatch msg.

Definition member (o : gmap string json) (k : string) : result json :=
  match o !! k with
  | Some v => Returns v
  | None => Raises (invalid ("The operation does not contain a '" ++ k ++ "' member"))
  end.

Definition pointer_member (o : gmap string json) (k : string)
    : result (list string) :=
  v ← member o k;
  match v with
  | JStr p => parse_pointer p
  | _ => Raises (invalid ("The '" ++ k ++ "' member must be a string"))
  end.

(** Modelled from the spec: [jsonpatch] is a third-party package and its code
    is not in the repository; one operation is applied as section 4.2 of the
    specification describes add, remove, replace, move, copy and test. *)
Definition apply_op (doc op : json) : result json :=
  match op with
  | JObj o =>
      match o !! "op" with
      | Some (JStr name) =>
          if String.eqb name "add" then
            ptr ← pointer_member o "path"; v ← member o "value";
            op_add ptr v doc
          else if String.eqb name "remove" then
            ptr ← pointer_member o "path";
            op_remove ptr doc
          else if String.eqb name "replace" then
            ptr ← pointer_member o "path"; v ← member o "value";
            op_replace ptr v doc
          else if String.eqb name "move" then
            ptr ← pointer_member o "path"; from ← pointer_member o "from";
            op_move from ptr doc
          else if String.eqb name "copy" then
            ptr ← pointer_member o "path"; from ← pointer_member o "from";
            op_copy from ptr doc
          else if String.eqb name "test" then
            ptr ← pointer_member o "path"; v ← member o "value";
            op_test ptr v doc
          else Raises (invalid ("Unknown operation '" ++ name ++ "'"))
      | Some _ => Raises (invalid "Operation must be a string")
      | None => Raises (invalid "Operation does not contain 'op' member")
      end
  | _ => Raises (invalid "Operation must be an object")
  end.

(** Modelled from the spec: the operations are applied strictly in sequence
    to a copy of the document; the first failure aborts the batch. *)
Fixpoint apply_ops (ops : list json) (doc : json) : result json :=
  match ops with
  | [] => Returns doc
  | op :: ops => doc' ← apply_op doc op; apply_ops ops doc'
  end.

(** Modelled from the spec: [jsonpatch.apply_patch(doc, patch)]. *)
Definition patch : JsonPatch := {| apply_patch doc ops := apply_ops ops doc |}.

End rfc6902.

(** ** Vocabulary of the statements *)

(** A dict literal. *)
Definition obj (members : list (string * json)) : json :=
  JObj (list_to_map members).

(** The [content] the normaliser gives a container that has none. *)
Definition synthesized (d : gmap string json) : json :=
  if is_inline d then _INLINE_DEFAULT_CONTENT else JList [].

(** The row [set_content] writes for a tree. *)
Definition stored `{JsonText} (content : json) (now : Z) : row :=
  Row (RawText (json_dumps content)) now.

(** The tree [patch_content] hands to [apply_patch]: the first two statements
    of its body. *)
Definition patch_input `{JsonText} (document_id : Z) (db : gmap Z row)
    : result json :=
  match get_content document_id db with
  | (Returns current, _) =>
      if truthy current then _ensure_tiptap_content current
      else Returns (JObj ∅)
  | (Raises e, _) => Raises e
  end.

(** *** Documents and patches of the scenarios *)

Definition doc_A : json :=
  obj [("type", JStr "doc"); ("content", JList [obj [("type", JStr "paragraph")]])].

Definition doc_A_normalized : json :=
  obj [("type", JStr "doc");
       ("content", JList [obj [("type", JStr "paragraph");
                               ("content", JList [obj [("type", JStr "text");
                                                       ("text", JStr "")]])]])].

Definition patch_A : list json :=
  [obj [("op", JStr "add"); ("path", JStr "/content/0/content/0/text");
        ("value", JStr "hi")]].

Definition result_A : json :=
  obj [("type", JStr "doc");
       ("content", JList [obj [("type", JStr "paragraph");
                               ("content", JList [obj [("type", JStr "text");
                                                       ("text", JStr "hi")]])]])].

Definition patch_C : list json :=
  [obj [("op", JStr "test"); ("path", JStr "/type"); ("value", JStr "wrong")]].

Definition patch_D : list json :=
  [obj [("op", JStr "replace"); ("path", JStr "");
        ("value", JList [JStr "not"; JStr "an"; JStr "object"])]].

(** A document of [n] nested [doc] nodes around an empty one; every tag is a
    string. *)
Fixpoint nested_doc (n : nat) : json :=
  match n with
  | O => obj [("type", JStr "doc"); ("content", JList [])]
  | S n => obj [("type", JStr "doc"); ("content", JList [nested_doc n])]
  end.

(** A dict whose [type] member is a list. *)
Definition doc_list_tag : json := obj [("type", JList [JStr "x"])].

(** A container whose [content] is a string. *)
Definition node_text_content : gmap string json :=
  list_to_map [("type", JStr "doc"); ("content", JStr "abc")].

(** The table after [set_content(7, doc)] on an empty table at time 0, with
    [tree_text] as the [json] module. *)
Definition table_with (doc : json) : gmap Z (@row tree_text) :=
  (@set_content tree_text 7 doc 0 ∅).2.

(** A tree is complete when every container node reached through [content]
    sequences has a [content] member. *)
Definition complete (t : json) : Prop :=
  ∀ p d, node_at t p = Some (JObj d) → is_container d = true →
         is_Some (d !! "content").

(** Scenario B: a first patch on a document that was never stored. *)
Definition patch_B : list json :=
  [obj [("op", JStr "add"); ("path", JStr "/type"); ("value", JStr "doc")]].

(** * The authentication middleware

    [src/studio/backend/src/infrastructure/middleware/auth_middleware.py],
    with the request context of
    [src/studio/backend/src/infrastructure/context/token_context.py] and the
    ports of [src/studio/backend/src/ports]. *)

(** ** Operations on Python strings *)

(** [s.startswith(prefix)] *)
Fixpoint startswith (s prefix : string) : bool :=
  match prefix, s with
  | EmptyString, _ => true
  | String c p, String c' s' => Ascii.eqb c c' && startswith s' p
  | String _ _, EmptyString => false
  end.

(** [s.endswith(suffix)]: some tail of [s] is [suffix]. *)
Fixpoint endswith (s suffix : string) : bool :=
  String.eqb s suffix ||
  match s with
  | EmptyString => false
  | String _ s' => endswith s' suffix
  end.

(** [sub in s]: [sub] starts at some position of [s]. *)
Fixpoint str_contains (sub s : string) : bool :=
  startswith s sub ||
  match s with
  | EmptyString => false
  | String _ s' => str_contains sub s'
  end.

(** [s[n:]] *)
Fixpoint str_from (n : nat) (s : string) : string :=
  match n, s with
  | S n, String _ s' => str_from n s'
  | _, _ => s
  end.

(** A [str] is held as the bytes of its UTF-8 encoding. A byte [10xxxxxx]
    continues the character that an earlier byte starts. *)
Definition is_continuation (c : ascii) : bool :=
  match c with Ascii _ _ _ _ _ _ b6 b7 => b7 && negb b6 end.

(** [len(s)]: the number of characters of [s], one for each byte that starts
    a character. On ASCII text it is the number of bytes. *)
Fixpoint py_len (s : string) : nat :=
  match s with
  | EmptyString => 0
  | String c s' => (if is_continuation c then 0 else 1) + py_len s'
  end.

(** [s * n] *)
Fixpoint str_repeat (n : nat) (s : string) : string :=
  match n with
  | O => EmptyString
  | S n => s ++ str_repeat n s
  end.

(** Truth value of a [str] and of an [Optional[str]]. *)
Definition str_truthy (s : string) : bool := negb (String.eqb s EmptyString).

Definition opt_str_truthy (o : option string) : bool :=
  match o with Some s => str_truthy s | None => false end.

(** ** Ports *)

Module user_management_port.
(** [UserInfo] of [user_management_port.py]. *)
Record UserInfo : Type := {
  id : string;
  account : string;
  vision_name : string;
  csf_level : Z;
  frozen : bool;
  roles : option (gmap string bool);
  email : option string;
  telephone : option string;
  third_attr : option string;
  third_id : option string;
  user_type : option Z;
  groups : option (list json);
  parent_deps : option (list json);
}.
End user_management_port.
Abbreviation UserInfo := user_management_port.UserInfo.

(** [IntrospectResponse] of [hydra_port.py]. *)
Record IntrospectResponse : Type := {
  active : bool;
  visitor_id : option string;
  visitor_typ : option string;
}.

(** The abstract methods of the two ports; a call may raise. *)
Record HydraPort : Type := {
  introspect : string → result IntrospectResponse;
}.

Record UserManagementPort : Type := {
  batch_get_user_info_by_id : list string → result (gmap string UserInfo);
}.

(** What the middleware takes from the container. *)
Record Container : Type := {
  hydra_adapter : HydraPort;
  user_management_adapter : UserManagementPort;
}.

(** ** The request context ([token_context.py]) *)

(** The two context variables; both default to [None]. *)
Record request_context : Type := RequestContext {
  _auth_token_context : option string;
  _user_info_context : option UserInfo;
}.

Module TokenContext.
Definition set_token (token : option string) (ctx : request_context)
    : request_context :=
  RequestContext token (_user_info_context ctx).
Definition get_token (ctx : request_context) : option string :=
  _auth_token_context ctx.
Definition clear_token (ctx : request_context) : request_context :=
  RequestContext None (_user_info_context ctx).
End TokenContext.

Module UserContext.
Definition set_user_info (user_info : option UserInfo) (ctx : request_context)
    : request_context :=
  RequestContext (_auth_token_context ctx) user_info.
Definition get_user_info (ctx : request_context) : option UserInfo :=
  _user_info_context ctx.
Definition clear_user_info (ctx : request_context) : request_context :=
  RequestContext (_auth_token_context ctx) None.
End UserContext.

Definition get_auth_token (ctx : request_context) : option string :=
  TokenContext.get_token ctx.

Definition get_user_info (ctx : request_context) : option UserInfo :=
  UserContext.get_user_info ctx.

(** [str(user_info.id)] is the id itself: the field is a [str]. *)
Definition get_user_id (ctx : request_context) : string :=
  match UserContext.get_user_info ctx with
  | Some user_info => user_management_port.id user_info
  | None => EmptyString
  end.

Definition get_user_name (ctx : request_context) : string :=
  match UserContext.get_user_info ctx with
  | Some user_info =>
      if str_truthy (user_management_port.vision_name user_info)
      then user_management_port.vision_name user_info
      else EmptyString
  | None => EmptyString
  end.

(** ** Public paths *)

Definition PUBLIC_PATHS : list string :=
  ["/health"; "/ready"; "/docs"; "/redoc"; "/openapi.json"].

Definition INTERNAL_PATHS : list string := ["/internal/"].

(** The two loops of [_is_public_path]; each returns [True] at the first
    entry that matches. *)
Definition _is_public_path (path : string) : bool :=
  existsb (λ internal_path, str_contains internal_path path) INTERNAL_PATHS ||
  existsb (λ public_path,
             String.eqb path public_path ||
             (endswith path public_path || endswith path (public_path ++ "/")) ||
             (startswith path (public_path ++ "/") ||
              startswith path (public_path ++ "?")))
          PUBLIC_PATHS.

(** ** Requests *)

(** The attributes the middleware sets on [request.state]; an attribute that
    was never set is [None]. *)
Record request_state : Type := State {
  state_auth_token : option string;
  state_user_id : option string;
  state_user_info : option UserInfo;
}.

(** A request: [request.url.path], [request.headers.get("Authorization")] and
    [request.state]. *)
Record Request : Type := {
  url_path : string;
  authorization : option string;
  state : request_state;
}.

Definition get_auth_token_from_request (request : Request) : option string :=
  state_auth_token (state request).

Definition get_user_id_from_request (request : Request) : string :=
  default EmptyString (state_user_id (state request)).

Definition get_user_info_from_request (request : Request) : option UserInfo :=
  state_user_info (state request).

(** The token of an [Authorization] header: what follows [Bearer ], or the
    whole header when it does not start with it. *)
Definition bearer_token (auth_header : string) : string :=
  if startswith auth_header "Bearer " then str_from 7 auth_header
  else auth_header.

Section dispatch.
(** The response type of the framework; [unauthorized description solution]
    is [UnauthorizedError(description, solution).to_response()], whose class
    is outside the sources. *)
Context {Response : Type}.
Variable unauthorized : string → string → Response.
(** [get_container()]; it may raise like any call. *)
Variable get_container : result Container.

(** A handler reads and writes the request context and may raise. *)
Definition handler : Type :=
  Request → request_context → result Response * request_context.

(** [try: ... finally: TokenContext.clear_token(); UserContext.clear_user_info()] *)
Definition finally_clear
    (run : request_context → result Response * request_context)
    : request_context → result Response * request_context := λ ctx,
  let '(outcome, ctx') := run ctx in
  (outcome, UserContext.clear_user_info (TokenContext.clear_token ctx')).

Definition needs_auth : Response :=
  unauthorized "访问此资源需要认证" "请在请求头中提供有效的Authorization token".

(** The [try] block of [dispatch]: it leaves with the user, with an early
    error response, or with an exception. *)
Definition identify (auth_token : string) : result (Response + UserInfo) :=
  container ← get_container;
  introspect ← introspect (hydra_adapter container) auth_token;
  if active introspect && opt_str_truthy (visitor_id introspect) then
    let visitor := default EmptyString (visitor_id introspect) in
    user_infos ← batch_get_user_info_by_id (user_management_adapter container)
                   [visitor];
    match user_infos !! visitor with
    | Some user_info => Returns (inr user_info)
    | None =>
        Returns (inl (unauthorized "无法获取用户信息" "请使用有效的token重新登录"))
    end
  else
    Returns (inl (unauthorized "Token无效或已过期" "请使用有效的token重新登录")).

Definition dispatch (request : Request) (call_next : handler)
    : request_context → result Response * request_context := λ ctx,
  let path := url_path request in
  if _is_public_path path then finally_clear (call_next request) ctx
  else
    let auth_header := authorization request in
    if negb (opt_str_truthy auth_header) then (Returns needs_auth, ctx)
    else
      let auth_header := default EmptyString auth_header in
      let auth_token := bearer_token auth_header in
      if negb (str_truthy auth_token) then (Returns needs_auth, ctx)
      else
        let request :=
          {| url_path := url_path request;
             authorization := authorization request;
             state := State (Some auth_header) (state_user_id (state request))
                            (state_user_info (state request)) |} in
        let ctx := TokenContext.set_token (Some auth_token) ctx in
        match identify auth_token with
        | Raises _ =>
            (Returns (unauthorized "Token验证失败" "请使用有效的token重新登录"), ctx)
        | Returns (inl error) => (Returns error, ctx)
        | Returns (inr user_info) =>
            let ctx := UserContext.set_user_info (Some user_info) ctx in
            let request :=
              {| url_path := url_path request;
                 authorization := authorization request;
                 state := State (state_auth_token (state request))
                                (Some (user_management_port.id user_info))
                                (Some user_info) |} in
            finally_clear (call_next request) ctx
        end.

(** The request and the context the handler of an identified user gets. *)
Definition identified_request (request : Request) (auth_header : string)
    (user_info : UserInfo) : Request :=
  {| url_path := url_path request;
     authorization := authorization request;
     state := State (Some auth_header) (Some (user_management_port.id user_info))
                    (Some user_info) |}.

Definition identified_context (auth_token : string) (user_info : UserInfo)
    : request_context :=
  RequestContext (Some auth_token) (Some user_info).
End dispatch.

(** * Domain models

    [src/studio/backend/src/domains/project.py] and
    [src/studio/backend/src/domains/dictionary.py]. A [datetime] is a point
    on the clock, an integer; [now] is the reading of [datetime.now()]. The
    length of a [str] is [py_len], the number of its characters. *)

(** [new if new is not None else old]: an argument of [update] that is given
    replaces the attribute. *)
Definition replace_if_given {A} (new : option A) (old : A) : A :=
  match new with Some x => x | None => old end.

(** The argument that two successive updates give for one attribute. *)
Definition later_given {A} (new old : option A) : option A :=
  match new with Some x => Some x | None => old end.

Module project.

Record Project : Type := {
  id : Z;
  name : string;
  description : option string;
  creator_id : string;
  creator_name : string;
  created_at : option Z;
  editor_id : string;
  editor_name : string;
  edited_at : option Z;
}.

Definition __post_init__ (now : Z) (self : Project) : Project :=
  let created_at :=
    match created_at self with None => Some now | Some t => Some t end in
  let edited_at :=
    match edited_at self with None => created_at | Some t => Some t end in
  let editor_id :=
    if negb (str_truthy (editor_id self)) then creator_id self
    else editor_id self in
  let editor_name :=
    if negb (str_truthy (editor_name self)) then creator_name self
    else editor_name self in
  {| id := id self; name := name self; description := description self;
     creator_id := creator_id self; creator_name := creator_name self;
     created_at := created_at;
     editor_id := editor_id; editor_name := editor_name;
     edited_at := edited_at |}.

Definition validate (self : Project) : result () :=
  if negb (str_truthy (name self)) || (128 <? py_len (name self))%nat
  then Raises (ValueError "项目名称不能为空且不能超过128字符")
  else if opt_str_truthy (description self) &&
          (400 <? py_len (default EmptyString (description self)))%nat
  then Raises (ValueError "项目描述不能超过400字符")
  else Returns ().

(** [update] assigns to [self] and returns it. *)
Definition update (name description editor_id editor_name : option string)
    (now : Z) (self : Project) : Project :=
  {| id := id self;
     name := replace_if_given name (project.name self);
     description :=
       match description with
       | Some d => Some d
       | None => project.description self
       end;
     creator_id := creator_id self; creator_name := creator_name self;
     created_at := created_at self;
     editor_id := replace_if_given editor_id (project.editor_id self);
     editor_name := replace_if_given editor_name (project.editor_name self);
     edited_at := Some now |}.

End project.

Module dictionary.

Record DictionaryEntry : Type := {
  id : Z;
  project_id : Z;
  term : string;
  definition : string;
  creator_id : option string;
  creator_name : option string;
  created_at : option Z;
  editor_id : option string;
  editor_name : option string;
  edited_at : option Z;
}.

Definition __post_init__ (now : Z) (self : DictionaryEntry) : DictionaryEntry :=
  let created_at :=
    match created_at self with None => Some now | Some t => Some t end in
  let edited_at :=
    match edited_at self with None => created_at | Some t => Some t end in
  let editor_id :=
    match editor_id self with None => creator_id self | Some e => Some e end in
  let editor_name :=
    match editor_name self with None => creator_name self | Some e => Some e end in
  {| id := id self; project_id := project_id self; term := term self;
     definition := definition self;
     creator_id := creator_id self; creator_name := creator_name self;
     created_at := created_at;
     editor_id := editor_id; editor_name := editor_name;
     edited_at := edited_at |}.

Definition validate (self : DictionaryEntry) : result () :=
  if negb (str_truthy (term self)) || (255 <? py_len (term self))%nat
  then Raises (ValueError "术语名称不能为空且不能超过255字符")
  else if negb (str_truthy (definition self))
  then Raises (ValueError "术语定义不能为空")
  else if (project_id self =? 0)%Z
  then Raises (ValueError "项目 ID 不能为空")
  else Returns ().

Definition update (term definition editor_id editor_name : option string)
    (now : Z) (self : DictionaryEntry) : DictionaryEntry :=
  {| id := id self; project_id := project_id self;
     term := replace_if_given term (dictionary.term self);
     definition := replace_if_given definition (dictionary.definition self);
     creator_id := creator_id self; creator_name := creator_name self;
     created_at := created_at self;
     editor_id :=
       match editor_id with
       | Some e => Some e
       | None => dictionary.editor_id self
       end;
     editor_name :=
       match editor_name with
       | Some e => Some e
       | None => dictionary.editor_name self
       end;
     edited_at := Some now |}.

(** An [Optional[str]] as a JSON value. *)
Definition json_opt_str (o : option string) : json :=
  match o with Some s => JStr s | None => JNull end.

Section to_dict.
(** [datetime.isoformat]. *)
Variable isoformat : Z → string.

Definition to_dict (self : DictionaryEntry) : json :=
  obj [("id", JInt (id self));
       ("project_id", JInt (project_id self));
       ("term", JStr (term self));
       ("definition", JStr (definition self));
       ("creator_id", json_opt_str (creator_id self));
       ("creator_name", json_opt_str (creator_name self));
       ("created_at", json_opt_str (isoformat <$> created_at self));
       ("editor_id", json_opt_str (editor_id self));
       ("editor_name", json_opt_str (editor_name self));
       ("edited_at", json_opt_str (isoformat <$> edited_at self))].
End to_dict.

End dictionary.

(** * The user-management adapter's base URL

    [UserManagementAdapter.__init__] of
    [src/studio/backend/src/adapters/user_management_adapter.py]. *)

(** [s.rstrip("/")]: [s] without its trailing slashes. *)
Fixpoint rstrip_slash (s : string) : string :=
  match s with
  | EmptyString => EmptyString
  | String c s' =>
      let r := rstrip_slash s' in
      if String.eqb r EmptyString && Ascii.eqb c "/"%char then EmptyString
      else String c r
  end.

(** [self._base_url] for a configured [user_management_url]. *)
Definition user_management_base_url (user_management_url : string) : string :=
  rstrip_slash user_management_url ++ "/api/user-management".

(** * Instances for the examples *)

Inductive demo_response : Type :=
  | Denied (description solution : string)
  | Served (body : string).

Definition demo_user : UserInfo :=
  {| user_management_port.id := "u-1";
     user_management_port.account := "alice";
     user_management_port.vision_name := "Alice";
     user_management_port.csf_level := 0;
     user_management_port.frozen := false;
     user_management_port.roles := None;
     user_management_port.email := None;
     user_management_port.telephone := None;
     user_management_port.third_attr := None;
     user_management_port.third_id := None;
     user_management_port.user_type := Some 1%Z;
     user_management_port.groups := None;
     user_management_port.parent_deps := None |}.

(** A Hydra that knows the token [good] and is unreachable for [down]. *)
Definition demo_hydra : HydraPort :=
  {| introspect token :=
       if String.eqb token "good"
       then Returns {| active := true; visitor_id := Some "u-1";
                       visitor_typ := None |}
       else if String.eqb token "down"
       then Raises (ValueError "connection refused")
       else Returns {| active := false; visitor_id := None;
                       visitor_typ := None |} |}.

Definition demo_user_management : UserManagementPort :=
  {| batch_get_user_info_by_id user_ids :=
       Returns (list_to_map ((λ i, (i, demo_user)) <$>
                             filter (λ i, i = "u-1") user_ids)) |}.

Definition demo_container : result Container :=
  Returns {| hydra_adapter := demo_hydra;
             user_management_adapter := demo_user_management |}.

(** A handler that answers with the id of the user it finds in the context,
    and one that fails. *)
Definition demo_handler : @handler demo_response := λ _ ctx,
  (Returns (Served (get_user_id ctx)), ctx).

Definition failing_handler : @handler demo_response := λ _ ctx,
  (Raises (ValueError "handler failed"), ctx).

Definition demo_request (path : string) (auth : option string) : Request :=
  {| url_path := path; authorization := auth;
     state := State None None None |}.

Definition no_context : request_context := RequestContext None None.

Definition demo_project : project.Project :=
  {| project.id := 1; project.name := "studio";
     project.description := Some "a project";
     project.creator_id := "u-1"; project.creator_name := "Alice";
     project.created_at := Some 10%Z;
     project.editor_id := "u-1"; project.editor_name := "Alice";
     project.edited_at := Some 10%Z |}.

(** A name of 43 CJK characters; its UTF-8 encoding has 129 bytes. *)
Definition cjk_name : string := str_repeat 43 "项".

(** A term of 100 CJK characters; its UTF-8 encoding has 300 bytes. *)
Definition cjk_term : string := str_repeat 100 "术".

Definition demo_entry : dictionary.DictionaryEntry :=
  {| dictionary.id := 1; dictionary.project_id := 1;
     dictionary.term := "node"; dictionary.definition := "an element of the tree";
     dictionary.creator_id := Some "u-1"; dictionary.creator_name := Some "Alice";
     dictionary.created_at := Some 10%Z;
     dictionary.editor_id := None; dictionary.editor_name := None;
     dictionary.edited_at := None |}.

(** A stored document with an empty [content]. *)
Definition doc_empty : json :=
  obj [("type", JStr "doc"); ("content", JList [])].

(** * Properties of the normaliser *)

(** ** Depth and the recursion limit *)

Lemma depth_elem (l : list json) c :
  c ∈ l → depth c < depth (JList l).
Proof.
  simpl. induction 1 as [c l|c c' l _ IH]; simpl; lia.
Qed.

Lemma depth_lookup (m : gmap string json) k v :
  m !! k = Some v → depth v < depth (JObj m).
Proof.
  simpl. intros Hk.
  cut (depth v ≤ map_fold (λ _ c acc, depth c `max` acc) 0 m)%nat; [lia|].
  revert Hk.
  apply (map_fold_weak_ind (λ r m, m !! k = Some v → (depth v ≤ r)%nat)).
  - by rewrite lookup_empty.
  - intros i x m' r Hi IH. 
    destruct (decide (i = k)) as [->|Hne].
    + rewrite lookup_insert_eq. intros [= ->]. lia.
    + rewrite lookup_insert_ne by done. intros Hv. specialize (IH Hv). lia.
Qed.

Lemma depth_child (d : gmap string json) cs c :
  d !! "content" = Some (JList cs) → c ∈ cs → S (depth c) < depth (JObj d).
Proof.
  intros Hd Hc. apply depth_lookup in Hd. apply depth_elem in Hc. lia.
Qed.

(** mapM in the result monad *)
Lemma mapM_result_ext {A B} (f g : A → result B) l :
  (∀ x, x ∈ l → f x = g x) → mapM f l = mapM g l.
Proof.
  induction l as [|x l IH]; intros Hfg; [done|].
  simpl. rewrite Hfg by left. rewrite IH; [done|].
  intros y Hy. apply Hfg. by right.
Qed.

Lemma mapM_Returns {A B} (f : A → result B) l k :
  mapM f l = Returns k ↔ Forall2 (λ x y, f x = Returns y) l k.
Proof.
  split.
  - revert k. induction l as [|x l IH]; intros k; simpl.
    + intros [= <-]. constructor.
    + destruct (f x) as [y|] eqn:Hx; [|done]. simpl.
      destruct (mapM f l) as [ys|] eqn:Hl; [|done]. simpl.
      intros [= <-]. constructor; auto.
  - induction 1 as [|x y l k Hx _ IH]; [done|].
    simpl. rewrite Hx. simpl. rewrite IH. done.
Qed.

Lemma ensure_body_ext (f g : json → result json) doc :
  (∀ d cs c, doc = JObj d → d !! "content" = Some (JList cs) → c ∈ cs →
     f c = g c) →
  f text_leaf = g text_leaf →
  ensure_body f doc = ensure_body g doc.
Proof.
  intros Hch Htext. destruct doc as [| | | | | |d]; try done. simpl.
  destruct (frozenset_contains _ _) as [b|]; [simpl|done].
  unfold dict_contains.
  destruct (d !! "content") as [v|] eqn:Hd.
  - rewrite andb_false_r, Hd. destruct v; try done.
    erewrite mapM_result_ext; [done|]. intros c Hc. by eapply Hch.
  - rewrite andb_true_r. destruct b; [|by rewrite Hd].
    destruct (tuple_contains _ _); rewrite lookup_insert_eq; simpl;
      [by rewrite Htext|done].
Qed.

Lemma ensure_fuel_text_leaf n : ensure_fuel (S n) text_leaf = Returns text_leaf.
Proof. reflexivity. Qed.

Lemma ensure_fuel_stable n k doc :
  depth doc < n → depth doc < k → ensure_fuel n doc = ensure_fuel k doc.
Proof.
  revert k doc. induction n as [|n IH]; intros k doc Hn Hk; [lia|].
  destruct k as [|k]; [lia|]. simpl.
  destruct (decide (depth doc = 0)) as [Hz|Hnz].
  { destruct doc; try done. }
  apply ensure_body_ext.
  - intros d cs c -> Hd Hc. pose proof (depth_child _ _ _ Hd Hc).
    apply IH; lia.
  - destruct n, k; try lia. by rewrite !ensure_fuel_text_leaf.
Qed.

Lemma ensure_tiptap_content_unfold doc :
  _ensure_tiptap_content doc = ensure_body _ensure_tiptap_content doc.
Proof.
  unfold _ensure_tiptap_content at 1. simpl.
  destruct (decide (depth doc = 0)) as [Hz|Hnz].
  { destruct doc; try done. }
  apply ensure_body_ext.
  - intros d cs c -> Hd Hc. pose proof (depth_child _ _ _ Hd Hc).
    apply ensure_fuel_stable; lia.
  - destruct (depth doc) as [|n]; [done|]. by rewrite ensure_fuel_text_leaf.
Qed.

Lemma ensure_fuel_enough n doc :
  depth doc < n → ensure_fuel n doc = _ensure_tiptap_content doc.
Proof. intros. apply ensure_fuel_stable; lia. Qed.

Lemma json_content_ind (P : json → Prop) :
  (∀ t, (∀ d cs c, t = JObj d → d !! "content" = Some (JList cs) → c ∈ cs → P c) → P t) →
  ∀ t, P t.
Proof.
  intros step t. remember (depth t) as n eqn:Hn.
  revert t Hn. induction (lt_wf n) as [n _ IH]. intros t ->.
  apply step. intros d cs c -> Hd Hc.
  eapply IH; [|reflexivity]. pose proof (depth_child _ _ _ Hd Hc). lia.
Qed.

Lemma mapM_Returns_exists {A B} (f : A → result B) l :
  (∀ x, x ∈ l → ∃ y, f x = Returns y) → ∃ k, mapM f l = Returns k.
Proof.
  induction l as [|x l IH]; intros Hf; [by exists []|].
  destruct (Hf x) as [y Hy]; [left|].
  destruct IH as [k Hk]; [intros z Hz; apply Hf; by right|].
  exists (y :: k). simpl. rewrite Hy. simpl. by rewrite Hk.
Qed.

Lemma mapM_Raises {A B} (f : A → result B) l e :
  mapM f l = Raises e → ∃ x, x ∈ l ∧ f x = Raises e.
Proof.
  induction l as [|x l IH]; simpl; [done|].
  destruct (f x) as [y|e'] eqn:Hx; simpl.
  - destruct (mapM f l) as [k|e'] eqn:Hl; simpl; [done|].
    intros [= ->]. destruct IH as (z & Hz & Hfz); [done|].
    exists z. split; [by right|done].
  - intros [= ->]. exists x. split; [left|done].
Qed.

Lemma frozenset_contains_hashable v s :
  hashable v = true → frozenset_contains v s = Returns (tuple_contains v s).
Proof. by destruct v. Qed.

Lemma frozenset_contains_unhashable v s :
  hashable v = false → ∃ msg, frozenset_contains v s = Raises (TypeError msg).
Proof. destruct v; try done; simpl; eauto. Qed.

Lemma ensure_leaf t : is_dict t = false → _ensure_tiptap_content t = Returns t.
Proof. by destruct t. Qed.

Lemma ensure_text_leaf : _ensure_tiptap_content text_leaf = Returns text_leaf.
Proof. reflexivity. Qed.

Lemma ensure_unhashable d :
  hashable (node_type d) = false →
  ∃ msg, _ensure_tiptap_content (JObj d) = Raises (TypeError msg).
Proof.
  intros Hh. rewrite ensure_tiptap_content_unfold. simpl.
  destruct (frozenset_contains_unhashable _ _TIPTAP_NODES_WITH_CONTENT Hh) as [msg Hm].
  exists msg. unfold node_type in Hm. by rewrite Hm.
Qed.

Lemma ensure_obj_list d cs :
  hashable (node_type d) = true → d !! "content" = Some (JList cs) →
  _ensure_tiptap_content (JObj d) =
    cs' ← mapM _ensure_tiptap_content cs;
    Returns (JObj (<["content" := JList cs']> d)).
Proof.
  intros Hh Hd. rewrite ensure_tiptap_content_unfold. simpl.
  unfold node_type in Hh. rewrite (frozenset_contains_hashable _ _ Hh). simpl.
  unfold dict_contains. by rewrite Hd, andb_false_r, Hd.
Qed.

Lemma ensure_obj_other d v :
  hashable (node_type d) = true → d !! "content" = Some v → is_list v = false →
  _ensure_tiptap_content (JObj d) = Returns (JObj d).
Proof.
  intros Hh Hd Hv. rewrite ensure_tiptap_content_unfold. simpl.
  unfold node_type in Hh. rewrite (frozenset_contains_hashable _ _ Hh). simpl.
  unfold dict_contains. rewrite Hd, andb_false_r, Hd. by destruct v.
Qed.

Lemma ensure_obj_missing d :
  hashable (node_type d) = true → d !! "content" = None →
  _ensure_tiptap_content (JObj d) =
    Returns (JObj (if is_container d then <["content" := synthesized d]> d else d)).
Proof.
  intros Hh Hd. rewrite ensure_tiptap_content_unfold. simpl.
  unfold node_type in Hh. rewrite (frozenset_contains_hashable _ _ Hh). simpl.
  unfold dict_contains, is_container, synthesized, is_inline, node_type.
  rewrite Hd, andb_true_r.
  destruct (tuple_contains _ _TIPTAP_NODES_WITH_CONTENT); [|by rewrite Hd].
  destruct (tuple_contains _ _); rewrite lookup_insert_eq; simpl.
  - rewrite ensure_text_leaf. simpl. by rewrite insert_insert_eq.
  - by rewrite insert_insert_eq.
Qed.

Lemma node_type_insert_content d v :
  node_type (<["content" := v]> d) = node_type d.
Proof. unfold node_type, dict_get. by rewrite lookup_insert_ne. Qed.

(** What a successful call on an object returns. *)
Lemma ensure_obj_inv d t' :
  _ensure_tiptap_content (JObj d) = Returns t' →
  hashable (node_type d) = true ∧
  match d !! "content" with
  | Some (JList cs) =>
      ∃ cs', Forall2 (λ c c', _ensure_tiptap_content c = Returns c') cs cs' ∧
             t' = JObj (<["content" := JList cs']> d)
  | Some _ => t' = JObj d
  | None => t' = JObj (if is_container d then <["content" := synthesized d]> d else d)
  end.
Proof.
  intros Ht. destruct (hashable (node_type d)) eqn:Hh.
  2:{ destruct (ensure_unhashable d Hh) as [msg Hm]. congruence. }
  split; [done|]. destruct (d !! "content") as [v|] eqn:Hd.
  - destruct (is_list v) eqn:Hv.
    + destruct v; try done. rewrite (ensure_obj_list d l Hh Hd) in Ht.
      destruct (mapM _ l) as [cs'|] eqn:Hcs; [|done]. simpl in Ht.
      exists cs'. split; [by apply mapM_Returns|congruence].
    + rewrite (ensure_obj_other d v Hh Hd Hv) in Ht. destruct v; try done; congruence.
  - rewrite (ensure_obj_missing d Hh Hd) in Ht. congruence.
Qed.

Lemma Forall2_diag_fixed (cs cs' : list json) :
  Forall2 (λ c c', _ensure_tiptap_content c = Returns c') cs cs' →
  (∀ c, c ∈ cs → ∀ c', _ensure_tiptap_content c = Returns c' →
     _ensure_tiptap_content c' = Returns c') →
  mapM _ensure_tiptap_content cs' = Returns cs'.
Proof.
  intros Hcs IH. apply mapM_Returns.
  induction Hcs as [|c c' cs cs' Hc _ IHcs]; constructor.
  - apply (IH c); [left|done].
  - apply IHcs. intros x Hx. apply IH. by right.
Qed.

Lemma ensure_fixed t t' :
  _ensure_tiptap_content t = Returns t' → _ensure_tiptap_content t' = Returns t'.
Proof.
  revert t'. induction t as [t IH] using json_content_ind. intros t' Ht.
  destruct (is_dict t) eqn:Hdict.
  2:{ rewrite (ensure_leaf t Hdict) in Ht. injection Ht as <-. by apply ensure_leaf. }
  destruct t as [| | | | | |d]; try done.
  destruct (ensure_obj_inv d t' Ht) as [Hh Hinv].
  destruct (d !! "content") as [v|] eqn:Hd.
  - destruct (is_list v) eqn:Hv.
    + destruct v as [| | | | |cs|]; try done. destruct Hinv as (cs' & Hcs & ->).
      rewrite (ensure_obj_list _ cs'), (Forall2_diag_fixed cs cs' Hcs).
      * simpl. by rewrite insert_insert_eq.
      * intros c Hc. by apply (IH d cs c).
      * by rewrite node_type_insert_content.
      * by rewrite lookup_insert_eq.
    + assert (t' = JObj d) as -> by (destruct v; try done). 
      by apply (ensure_obj_other d v).
  - subst t'. destruct (is_container d) eqn:Hc.
    + unfold synthesized. destruct (is_inline d).
      * rewrite (ensure_obj_list _ [text_leaf]).
        -- simpl. rewrite ensure_text_leaf. simpl. by rewrite insert_insert_eq.
        -- by rewrite node_type_insert_content.
        -- by rewrite lookup_insert_eq.
      * rewrite (ensure_obj_list _ []).
        -- simpl. by rewrite insert_insert_eq.
        -- by rewrite node_type_insert_content.
        -- by rewrite lookup_insert_eq.
    + rewrite (ensure_obj_missing d Hh Hd). by rewrite Hc.
Qed.


Lemma node_at_ensure t t' p n :
  _ensure_tiptap_content t = Returns t' → node_at t p = Some n →
  ∃ n', node_at t' p = Some n' ∧ _ensure_tiptap_content n = Returns n'.
Proof.
  revert t t'. induction p as [|i p IH]; intros t t' Ht Hn; simpl in Hn.
  { injection Hn as <-. by exists t'. }
  destruct t as [| | | | | |d]; try done.
  destruct (ensure_obj_inv d t' Ht) as [_ Hinv].
  destruct (d !! "content") as [[| | | | |cs|]|] eqn:Hd; try done.
  destruct Hinv as (cs' & Hcs & ->).
  destruct (cs !! i) as [c|] eqn:Hi; [|done]. simpl in Hn.
  destruct (Forall2_lookup_l _ _ _ _ _ Hcs Hi) as (c' & Hi' & Hc).
  destruct (IH c c' Hc Hn) as (n' & Hn' & Hnn).
  exists n'. split; [|done]. simpl. rewrite lookup_insert_eq, Hi'. done.
Qed.

Lemma node_at_fixed t p n :
  _ensure_tiptap_content t = Returns t → node_at t p = Some n →
  _ensure_tiptap_content n = Returns n.
Proof.
  intros Ht Hn. destruct (node_at_ensure t t p n Ht Hn) as (n' & Hn' & Hnn).
  congruence.
Qed.

Lemma is_container_insert_content d v :
  is_container (<["content" := v]> d) = is_container d.
Proof. unfold is_container. by rewrite node_type_insert_content. Qed.

Lemma is_inline_insert_content d v :
  is_inline (<["content" := v]> d) = is_inline d.
Proof. unfold is_inline. by rewrite node_type_insert_content. Qed.

(** C2. Container completion: in the normalised tree every node whose type
    is in the container set has a [content] member; where the node had none
    before, it is the one default text leaf for [paragraph] and [heading] and
    the empty sequence otherwise. Nodes are addressed by their path of child
    indices through [content] sequences. *)
Theorem container_completion t t' :
  _ensure_tiptap_content t = Returns t' →
  (∀ p d', node_at t' p = Some (JObj d') → is_container d' = true →
     is_Some (d' !! "content")) ∧
  (∀ p d d', node_at t p = Some (JObj d) → node_at t' p = Some (JObj d') →
     is_container d' = true → d !! "content" = None →
     d' !! "content" =
       Some (if is_inline d' then JList [text_leaf] else JList [])).
Proof.
  intros Ht. split.
  - intros p d' Hp Hc.
    pose proof (node_at_fixed t' p _ (ensure_fixed t t' Ht) Hp) as Hfix.
    destruct (ensure_obj_inv d' _ Hfix) as [_ Hinv].
    destruct (d' !! "content") as [v|] eqn:Hd; [by eexists|].
    rewrite Hc in Hinv. injection Hinv as Hinv.
    rewrite Hinv, lookup_insert_eq in Hd. done.
  - intros p d d' Hp Hp' Hc Hd.
    destruct (node_at_ensure t t' p _ Ht Hp) as (n' & Hn' & Hn).
    rewrite Hp' in Hn'. injection Hn' as <-.
    destruct (ensure_obj_inv d _ Hn) as [_ Hinv]. rewrite Hd in Hinv.
    injection Hinv as Hinv. destruct (is_container d) eqn:Hcd.
    + subst d'. rewrite is_inline_insert_content, lookup_insert_eq. done.
    + congruence.
Qed.

(** C8. Frame: values that are not objects stay as they are; a node keeps
    every member other than [content]; a [content] that is not a sequence is
    kept; a [content] sequence keeps its length, and its element at each
    index is the normalised element of that index; the only member ever added
    is the [content] of a container that had none. *)
Theorem normalization_frame t t' :
  _ensure_tiptap_content t = Returns t' →
  (∀ p v, node_at t p = Some v → is_dict v = false → node_at t' p = Some v) ∧
  (∀ p d, node_at t p = Some (JObj d) →
     ∃ d', node_at t' p = Some (JObj d') ∧
       (∀ k, k ≠ "content" → d' !! k = d !! k) ∧
       (∀ v, d !! "content" = Some v → is_list v = false →
          d' !! "content" = Some v) ∧
       (∀ cs, d !! "content" = Some (JList cs) →
          ∃ cs', d' !! "content" = Some (JList cs') ∧
            length cs' = length cs ∧
            ∀ i c, cs !! i = Some c →
              ∃ c', cs' !! i = Some c' ∧ _ensure_tiptap_content c = Returns c') ∧
       (d !! "content" = None →
          d' !! "content" =
            if is_container d then Some (synthesized d) else None)).
Proof.
  intros Ht. split.
  - intros p v Hp Hv. destruct (node_at_ensure t t' p v Ht Hp) as (n' & Hn' & Hn).
    rewrite (ensure_leaf v Hv) in Hn. congruence.
  - intros p d Hp. destruct (node_at_ensure t t' p _ Ht Hp) as (n' & Hn' & Hn).
    destruct (ensure_obj_inv d _ Hn) as [_ Hinv].
    destruct (d !! "content") as [v|] eqn:Hd.
    + destruct (is_list v) eqn:Hv.
      * destruct v as [| | | | |cs|]; try done. destruct Hinv as (cs' & Hcs & ->).
        eexists. split; [done|]. split; [|split; [|split; [|done]]].
        -- intros k Hk. by rewrite lookup_insert_ne.
        -- intros v [= <-]. done.
        -- intros ? [= <-]. exists cs'. rewrite lookup_insert_eq.
           split; [done|]. split; [symmetry; by eapply Forall2_length|].
           intros i c Hi. by apply (Forall2_lookup_l _ _ _ _ _ Hcs Hi).
      * assert (n' = JObj d) as -> by (destruct v; try done).
        exists d. split; [done|]. split; [done|]. split; [|split; [|done]].
        -- by intros v0 [= <-] _.
        -- by intros cs [= ->].
    + subst n'. eexists. split; [done|].
      split; [|split; [done|split; [done|]]].
      * intros k Hk. destruct (is_container d); [|done]. by rewrite lookup_insert_ne.
      * intros _. destruct (is_container d); [by rewrite lookup_insert_eq|done].
Qed.


Lemma tags_hashable_child d cs i c :
  d !! "content" = Some (JList cs) → cs !! i = Some c →
  tags_hashable (JObj d) → tags_hashable c.
Proof.
  intros Hd Hi Ht p e Hp. apply (Ht (i :: p)). simpl. by rewrite Hd, Hi.
Qed.

Lemma ensure_returns t : tags_hashable t → ∃ t', _ensure_tiptap_content t = Returns t'.
Proof.
  induction t as [t IH] using json_content_ind. intros Ht.
  destruct (is_dict t) eqn:Hdict; [|exists t; by apply ensure_leaf].
  destruct t as [| | | | | |d]; try done.
  assert (hashable (node_type d) = true) as Hh by (by apply (Ht [])).
  destruct (d !! "content") as [v|] eqn:Hd.
  - destruct (is_list v) eqn:Hv.
    + destruct v as [| | | | |cs|]; try done.
      rewrite (ensure_obj_list d cs Hh Hd).
      destruct (mapM_Returns_exists _ensure_tiptap_content cs) as [cs' Hcs].
      { intros c Hc. apply (IH d cs c); [done..|].
        apply list_elem_of_lookup in Hc as [i Hi].
        by apply (tags_hashable_child d cs i). }
      rewrite Hcs. simpl. eauto.
    + rewrite (ensure_obj_other d v Hh Hd Hv). eauto.
  - rewrite (ensure_obj_missing d Hh Hd). eauto.
Qed.

Lemma ensure_outcome t :
  (∃ t', _ensure_tiptap_content t = Returns t') ∨
  (∃ msg, _ensure_tiptap_content t = Raises (TypeError msg)).
Proof.
  induction t as [t IH] using json_content_ind.
  destruct (is_dict t) eqn:Hdict; [|left; exists t; by apply ensure_leaf].
  destruct t as [| | | | | |d]; try done.
  destruct (hashable (node_type d)) eqn:Hh; [|right; by apply ensure_unhashable].
  destruct (d !! "content") as [v|] eqn:Hd.
  - destruct (is_list v) eqn:Hv.
    + destruct v as [| | | | |cs|]; try done.
      rewrite (ensure_obj_list d cs Hh Hd).
      destruct (mapM _ensure_tiptap_content cs) as [cs'|e] eqn:Hcs; simpl; [eauto|].
      right. apply mapM_Raises in Hcs as (c & Hc & Hce).
      destruct (IH d cs c eq_refl Hd Hc) as [[c' Hc']|[msg Hmsg]]; [congruence|].
      exists msg. congruence.
    + rewrite (ensure_obj_other d v Hh Hd Hv). eauto.
  - rewrite (ensure_obj_missing d Hh Hd). eauto.
Qed.

(** The normaliser returns exactly on the trees whose visited type tags can
    be hashed. *)
Lemma ensure_returns_iff t :
  (∃ t', _ensure_tiptap_content t = Returns t') ↔ tags_hashable t.
Proof.
  split; [|apply ensure_returns].
  intros [t' Ht] p d Hp.
  destruct (node_at_ensure t t' p _ Ht Hp) as (n' & _ & Hn).
  by destruct (ensure_obj_inv d n' Hn).
Qed.

(** Under a limit the normaliser returns, raises a [TypeError] or raises
    [RecursionError]. *)
Lemma ensure_fuel_outcome limit t :
  (∃ t', ensure_fuel limit t = Returns t') ∨
  (∃ msg, ensure_fuel limit t = Raises (TypeError msg)) ∨
  ensure_fuel limit t = Raises RecursionError.
Proof.
  revert t. induction limit as [|n IH]; intros t; [by right; right|]. simpl.
  destruct t as [| | | | | |d]; try (left; by eexists). simpl.
  destruct (frozenset_contains _ _) as [b|e] eqn:Hf; simpl.
  2:{ right; left. destruct (py_or _ _); simpl in Hf; try done;
      injection Hf as <-; eauto. }
  match goal with |- context [match ?o !! "content" with _ => _ end] =>
    destruct (o !! "content") as [[| | | | |cs|]|] end; try (left; by eexists).
  destruct (mapM (ensure_fuel n) cs) as [cs'|e] eqn:Hcs; simpl; [left; eauto|].
  right. apply mapM_Raises in Hcs as (c & _ & Hc).
  destruct (IH c) as [[c' Hc']|[[msg Hmsg]|Hrec]]; [congruence|left|right].
  - exists msg. congruence.
  - congruence.
Qed.

(** One [doc] node around one child costs one level of the limit. *)
Lemma ensure_fuel_doc_step k c :
  ensure_fuel (S k) (obj [("type", JStr "doc"); ("content", JList [c])]) =
    c' ← ensure_fuel k c;
    Returns (obj [("type", JStr "doc"); ("content", JList [c'])]).
Proof.
  unfold obj.
  change (ensure_fuel (S k) ?d) with (ensure_body (ensure_fuel k) d).
  unfold ensure_body.
  set (d := list_to_map _ : gmap string json).
  assert (d !! "type" = Some (JStr "doc")) as Ht by reflexivity.
  assert (d !! "content" = Some (JList [c])) as Hc by reflexivity.
  assert (∀ c', <["content" := JList [c']]> d =
                list_to_map [("type", JStr "doc"); ("content", JList [c'])])
    as Hd.
  { intros c'. apply map_eq. intros i. subst d. simpl.
    destruct (decide (i = "content")) as [->|].
    { by rewrite lookup_insert_eq, lookup_insert_ne, lookup_insert_eq. }
    rewrite lookup_insert_ne by done.
    destruct (decide (i = "type")) as [->|].
    - by rewrite !lookup_insert_eq.
    - by rewrite !lookup_insert_ne by done. }
  clearbody d.
  unfold dict_get, dict_contains. rewrite Ht, Hc.
  change (frozenset_contains _ _) with (@Returns bool true).
  cbn [mbind result_bind andb negb]. rewrite Hc. cbn [mapM].
  destruct (ensure_fuel k c) as [c'|e];
    cbn [mbind mret result_ret result_bind]; [|done].
  by rewrite Hd.
Qed.

(** A document nested deeper than the limit makes the normaliser raise
    [RecursionError] although all its tags are strings; one that fits is
    returned. *)
Lemma ensure_fuel_nested_doc limit n :
  ensure_fuel limit (nested_doc n) =
    if bool_decide (n < limit) then Returns (nested_doc n)
    else Raises RecursionError.
Proof.
  revert n. induction limit as [|k IH]; intros n.
  { rewrite bool_decide_eq_false_2; [done|lia]. }
  destruct n as [|n].
  { rewrite bool_decide_eq_true_2; [|lia]. vm_compute. reflexivity. }
  change (nested_doc (S n))
    with (obj [("type", JStr "doc"); ("content", JList [nested_doc n])]).
  rewrite ensure_fuel_doc_step, IH. destruct (decide (n < k)).
  - rewrite !bool_decide_eq_true_2 by lia. done.
  - rewrite !bool_decide_eq_false_2 by lia. done.
Qed.


Lemma ensure_empty : _ensure_tiptap_content (JObj ∅) = Returns (JObj ∅).
Proof. reflexivity. Qed.

Lemma ensure_is_dict d t' :
  _ensure_tiptap_content (JObj d) = Returns t' → is_dict t' = true.
Proof.
  intros Ht. destruct (ensure_obj_inv d t' Ht) as [_ Hinv].
  destruct (d !! "content") as [[| | | | |cs|]|]; try by subst t'.
  by destruct Hinv as (cs' & _ & ->).
Qed.

(** * Properties of the library models *)

(** ** [json_eqb] decides equality of trees *)

Lemma json_eqb_list (xs ys : list json) :
  (∀ x, x ∈ xs → ∀ y, json_eqb x y = true ↔ x = y) →
  json_eqb (JList xs) (JList ys) = true ↔ xs = ys.
Proof.
  simpl. revert ys. induction xs as [|x xs IH]; intros [|y ys] Hx; try done.
  rewrite andb_true_iff, (Hx x) by left.
  rewrite IH by (intros z Hz; apply Hx; by right).
  split; [by intros [-> ->]|by intros [= -> ->]].
Qed.

Lemma json_eqb_fold (m1 m2 : gmap string json) :
  (∀ k v, m1 !! k = Some v → ∀ y, json_eqb v y = true ↔ v = y) →
  map_fold (λ k v acc,
              acc && match m2 !! k with
                     | Some w => json_eqb v w
                     | None => false
                     end) true m1 = true ↔
  ∀ k v, m1 !! k = Some v → m2 !! k = Some v.
Proof.
  apply (map_fold_weak_ind (λ r m,
    (∀ k v, m !! k = Some v → ∀ y, json_eqb v y = true ↔ v = y) →
    r = true ↔ ∀ k v, m !! k = Some v → m2 !! k = Some v)).
  - intros _. split; [|done]. intros _ k v. by rewrite lookup_empty.
  - intros i x m r Hi IH Hm.
    assert (r = true ↔ ∀ k v, m !! k = Some v → m2 !! k = Some v) as IH'.
    { apply IH. intros k v Hk. apply (Hm k). rewrite lookup_insert_ne; [done|]. congruence. }
    rewrite andb_true_iff, IH'.
    assert (match m2 !! i with Some w => json_eqb x w | None => false end = true
            ↔ m2 !! i = Some x) as ->.
    { destruct (m2 !! i) as [w|]; [|done].
      rewrite (Hm i x) by apply lookup_insert_eq. split; congruence. }
    split.
    + intros [Hall Hx] k v. destruct (decide (i = k)) as [->|Hne].
      * rewrite lookup_insert_eq. by intros [= <-].
      * rewrite lookup_insert_ne by done. apply Hall.
    + intros Hall. split.
      * intros k v Hk. apply Hall. rewrite lookup_insert_ne; [done|]. congruence.
      * apply Hall, lookup_insert_eq.
Qed.

Lemma json_eqb_obj (m1 m2 : gmap string json) :
  (∀ k v, m1 !! k = Some v → ∀ y, json_eqb v y = true ↔ v = y) →
  json_eqb (JObj m1) (JObj m2) = true ↔ m1 = m2.
Proof.
  intros Hm. simpl. rewrite andb_true_iff, bool_decide_eq_true, (json_eqb_fold m1 m2 Hm).
  split; [|by intros ->]. intros [Hdom Hall]. apply map_eq. intros k.
  destruct (m1 !! k) as [v|] eqn:Hk; [symmetry; by apply Hall|].
  symmetry. apply not_elem_of_dom. rewrite <-Hdom. by apply not_elem_of_dom.
Qed.

Lemma json_eqb_eq a b : json_eqb a b = true ↔ a = b.
Proof.
  remember (depth a) as n eqn:Hn. revert a b Hn.
  induction (lt_wf n) as [n _ IH]. intros a b ->.
  destruct a as [| | | | |xs|m1], b as [| | | | |ys|m2];
    try (simpl; rewrite ?bool_decide_eq_true; split; congruence).
  - rewrite json_eqb_list; [split; congruence|].
    intros x Hx y. eapply IH; [|done]. by apply depth_elem.
  - rewrite json_eqb_obj; [split; congruence|].
    intros k v Hk y. eapply IH; [|done]. by eapply depth_lookup.
Qed.

(** ** The JSON Patch model applies operations in sequence *)

Lemma apply_patch_nil doc : @apply_patch rfc6902.patch doc [] = Returns doc.
Proof. reflexivity. Qed.

Lemma apply_ops_app ops1 ops2 doc :
  rfc6902.apply_ops (ops1 ++ ops2) doc =
    doc' ← rfc6902.apply_ops ops1 doc; rfc6902.apply_ops ops2 doc'.
Proof.
  revert doc. induction ops1 as [|op ops1 IH]; intros doc; simpl; [done|].
  destruct (rfc6902.apply_op doc op) as [doc'|]; simpl; [apply IH|done].
Qed.

(** An operation that fails where the earlier ones succeeded fails the
    batch, whatever follows it. *)
Lemma apply_patch_fails_at ops1 op ops2 doc doc' e :
  rfc6902.apply_ops ops1 doc = Returns doc' →
  rfc6902.apply_op doc' op = Raises e →
  @apply_patch rfc6902.patch doc (ops1 ++ op :: ops2) = Raises e.
Proof.
  intros H1 Hop. simpl. rewrite apply_ops_app, H1. simpl. by rewrite Hop.
Qed.

(** * Properties of the adapter *)

Section adapter_facts.
Context `{JsonText} `{JsonPatch}.
Implicit Types (db : gmap Z row) (id now : Z) (ops : list json).

Lemma get_content_state id db : (get_content id db).2 = db.
Proof.
  unfold get_content. destruct (db !! id) as [[[d|raw] ?]|]; simpl; try done.
  by destruct (text_nonempty raw).
Qed.

Lemma get_content_absent id db :
  db !! id = None → get_content id db = (Returns (JObj ∅), db).
Proof. intros Hid. unfold get_content. by rewrite Hid. Qed.

Lemma get_content_stored id content now db :
  text_nonempty (json_dumps content) = true →
  get_content id (<[id := stored content now]> db) =
    (json_loads (json_dumps content), <[id := stored content now]> db).
Proof.
  intros Hne. unfold get_content. rewrite lookup_insert_eq. simpl. by rewrite Hne.
Qed.

(** The body of [patch_content], statement by statement. *)
Lemma patch_content_eq id ops now db :
  patch_content id ops now db =
    match patch_input id db with
    | Raises e => (Raises e, db)
    | Returns current =>
        match apply_patch current ops with
        | Raises (JsonPatchException _ msg) => (Raises (patch_failed msg), db)
        | Raises e => (Raises e, db)
        | Returns new_content =>
            if is_dict new_content
            then (Returns new_content, <[id := stored new_content now]> db)
            else (Raises result_not_object, db)
        end
    end.
Proof.
  unfold patch_content, patch_input, mbind, io_bind, lift, try_except, raise.
  pose proof (get_content_state id db) as Hs.
  destruct (get_content id db) as [[current|e] db']; simpl in Hs; subst db'; [|done].
  destruct (if truthy current then _ else _) as [cur|e]; [|done].
  destruct (apply_patch cur ops) as [new|e]; [|by destruct e].
  by destruct new.
Qed.

(** Whatever makes [patch_content] raise, the table is the one it started
    from. *)
Lemma patch_content_raises_unchanged id ops now db e db' :
  patch_content id ops now db = (Raises e, db') → db' = db.
Proof.
  rewrite patch_content_eq.
  destruct (patch_input id db) as [current|]; [|congruence].
  destruct (apply_patch current ops) as [new|[]]; try congruence.
  destruct (is_dict new); congruence.
Qed.

(** C1. Atomicity of patch: when applying the operations to the normalised
    stored tree raises, [patch_content] raises and the table is left as it
    was; more generally the table is unchanged whenever [patch_content]
    raises ([set_content] is not reached), and when it returns, the returned
    tree is the result of the whole operation sequence and is what the row
    now holds. *)
Theorem patch_atomic id ops now db :
  (∀ current e,
     patch_input id db = Returns current →
     apply_patch current ops = Raises e →
     ∃ e', patch_content id ops now db = (Raises e', db)) ∧
  (∀ e db', patch_content id ops now db = (Raises e, db') → db' = db) ∧
  (∀ new_content db',
     patch_content id ops now db = (Returns new_content, db') →
     ∃ current,
       patch_input id db = Returns current ∧
       apply_patch current ops = Returns new_content ∧
       db' = <[id := stored new_content now]> db).
Proof.
  split; [|split].
  - intros current e Hin Hap. rewrite patch_content_eq, Hin, Hap.
    destruct e; eauto.
  - apply patch_content_raises_unchanged.
  - intros new db'. rewrite patch_content_eq.
    destruct (patch_input id db) as [current|]; [|congruence].
    destruct (apply_patch current ops) as [new'|[]] eqn:Hap; try congruence.
    destruct (is_dict new'); [|congruence].
    intros [= -> <-]. by exists current.
Qed.

(** C4. Object-rootedness: when the operations apply but their result is not
    an object, [patch_content] raises the invalid-result error and the table
    is left as it was. *)
Theorem patch_result_must_be_object id ops now db current v :
  patch_input id db = Returns current →
  apply_patch current ops = Returns v →
  is_dict v = false →
  patch_content id ops now db = (Raises result_not_object, db).
Proof. intros Hin Hap Hv. by rewrite patch_content_eq, Hin, Hap, Hv. Qed.



End adapter_facts.

(** ** Scenario A *)

(** C7. Scenario A: with the document [doc_A] stored, the [add] of the text
    "hi" at [/content/0/content/0/text] succeeds and yields [result_A],
    because the normaliser first gives the paragraph its default text leaf;
    on the stored tree as it is, the same patch fails on the missing
    [content] member. *)
Theorem scenario_A `{JsonText} (id now : Z) (db : gmap Z row) :
  get_content id db = (Returns doc_A, db) →
  _ensure_tiptap_content doc_A = Returns doc_A_normalized ∧
  @patch_content _ rfc6902.patch id patch_A now db =
    (Returns result_A, <[id := stored result_A now]> db) ∧
  @apply_patch rfc6902.patch doc_A patch_A =
    Raises (JsonPointerException "member 'content' not found").
Proof.
  intros Hget.
  assert (_ensure_tiptap_content doc_A = Returns doc_A_normalized) as Hnorm
    by (vm_compute; reflexivity).
  split; [done|]. split; [|vm_compute; reflexivity].
  rewrite patch_content_eq. unfold patch_input. rewrite Hget.
  assert (truthy doc_A = true) as -> by reflexivity. rewrite Hnorm.
  assert (@apply_patch rfc6902.patch doc_A_normalized patch_A = Returns result_A)
    as -> by (vm_compute; reflexivity).
  done.
Qed.

(** * The theorems at concrete inputs *)

(** Closed goals are settled by running the definitions. *)
Ltac evaluate := vm_compute; reflexivity.

Lemma tags_hashable_doc_A : tags_hashable doc_A.
Proof.
  intros p d. destruct p as [|[|i] [|j p]]; vm_compute; try discriminate;
    intros [= <-]; reflexivity.
Qed.


Lemma container_completion_witness :
  _ensure_tiptap_content doc_A = Returns doc_A_normalized ∧
  (∀ p d', node_at doc_A_normalized p = Some (JObj d') →
     is_container d' = true → is_Some (d' !! "content")).
Proof.
  split; [evaluate|].
  apply (container_completion doc_A doc_A_normalized). evaluate.
Defined.

Lemma normalization_frame_witness :
  _ensure_tiptap_content doc_A = Returns doc_A_normalized ∧
  (∀ p v, node_at doc_A p = Some v → is_dict v = false →
     node_at doc_A_normalized p = Some v).
Proof.
  split; [evaluate|].
  apply (normalization_frame doc_A doc_A_normalized). evaluate.
Defined.




Lemma patch_atomic_witness :
  @patch_input tree_text 7 (table_with doc_A) = Returns doc_A_normalized ∧
  @apply_patch rfc6902.patch doc_A_normalized patch_C =
    Raises rfc6902.test_failed ∧
  ∃ e', @patch_content tree_text rfc6902.patch 7 patch_C 5 (table_with doc_A) =
          (Raises e', table_with doc_A).
Proof.
  split; [evaluate|]. split; [evaluate|].
  apply (@patch_atomic tree_text rfc6902.patch 7 patch_C 5 (table_with doc_A))
    with (current := doc_A_normalized) (e := rfc6902.test_failed);
    evaluate.
Defined.

Lemma patch_result_must_be_object_witness :
  @patch_input tree_text 7 (table_with doc_A) = Returns doc_A_normalized ∧
  @apply_patch rfc6902.patch doc_A_normalized patch_D =
    Returns (JList [JStr "not"; JStr "an"; JStr "object"]) ∧
  @patch_content tree_text rfc6902.patch 7 patch_D 5 (table_with doc_A) =
    (Raises result_not_object, table_with doc_A).
Proof.
  split; [evaluate|]. split; [evaluate|].
  apply (@patch_result_must_be_object tree_text rfc6902.patch 7 patch_D 5
           (table_with doc_A) doc_A_normalized
           (JList [JStr "not"; JStr "an"; JStr "object"]));
    evaluate.
Defined.





Lemma scenario_A_witness :
  @get_content tree_text 7 (table_with doc_A) = (Returns doc_A, table_with doc_A) ∧
  @patch_content tree_text rfc6902.patch 7 patch_A 5 (table_with doc_A) =
    (Returns result_A, <[7%Z := @stored tree_text result_A 5]> (table_with doc_A)).
Proof.
  split; [evaluate|].
  apply (@scenario_A tree_text 7 5 (table_with doc_A)). evaluate.
Defined.

(** * Further properties of the normaliser and of the content store *)

(** On a stack that affords the tree, the normaliser raises exactly when some
    visited type tag cannot be hashed. *)
Lemma ensure_afforded_raises t :
  (∃ msg, _ensure_tiptap_content t = Raises (TypeError msg)) ↔ ¬ tags_hashable t.
Proof.
  split.
  - intros [msg He] Ht. destruct (ensure_returns t Ht) as [t' Ht']. congruence.
  - intros Hnot. destruct (ensure_outcome t) as [[t' Ht]|[msg Ht]]; [|eauto].
    exfalso. apply Hnot, ensure_returns_iff. eauto.
Qed.


Lemma complete_child d cs i c :
  d !! "content" = Some (JList cs) → cs !! i = Some c →
  complete (JObj d) → complete c.
Proof.
  intros Hd Hi Ht p e Hp. apply (Ht (i :: p)). simpl. by rewrite Hd, Hi.
Qed.

Lemma mapM_Returns_id {A} (f : A → result A) l :
  (∀ x, x ∈ l → f x = Returns x) → mapM f l = Returns l.
Proof.
  intros Hf. apply mapM_Returns. induction l as [|x l IH]; constructor.
  - apply Hf. left.
  - apply IH. intros y Hy. apply Hf. by right.
Qed.

(** On a stack that affords the tree, the normaliser is the identity exactly
    on the complete trees it can read. *)
Lemma ensure_afforded_identity t :
  _ensure_tiptap_content t = Returns t ↔ tags_hashable t ∧ complete t.
Proof.
  split.
  - intros Ht. split; [apply ensure_returns_iff; eauto|].
    intros p d Hp Hc.
    pose proof (node_at_fixed t p _ Ht Hp) as Hfix.
    destruct (ensure_obj_inv d _ Hfix) as [_ Hinv].
    destruct (d !! "content") as [v|] eqn:Hd; [by eexists|].
    rewrite Hc in Hinv. injection Hinv as Hinv.
    rewrite Hinv, lookup_insert_eq in Hd. done.
  - induction t as [t IH] using json_content_ind. intros [Hh Hc].
    destruct (is_dict t) eqn:Hdict; [|by apply ensure_leaf].
    destruct t as [| | | | | |d]; try done.
    assert (hashable (node_type d) = true) as Hd' by (by apply (Hh [])).
    destruct (d !! "content") as [v|] eqn:Hd.
    + destruct (is_list v) eqn:Hv.
      * destruct v as [| | | | |cs|]; try done.
        rewrite (ensure_obj_list d cs Hd' Hd), mapM_Returns_id.
        { simpl. by rewrite insert_id. }
        intros c Hin. apply (IH d cs c); [done..|].
        apply list_elem_of_lookup in Hin as [i Hi]. split.
        -- by apply (tags_hashable_child d cs i).
        -- by apply (complete_child d cs i).
      * by apply (ensure_obj_other d v).
    + rewrite (ensure_obj_missing d Hd' Hd).
      destruct (is_container d) eqn:Hcont; [|done].
      destruct (Hc [] d eq_refl Hcont) as [v Hv]. congruence.
Qed.




(** X3. The only values the normaliser adds to a tree are default text leaves:
    a position of the result that is not a position of the input holds the
    leaf [{"type": "text", "text": ""}]. *)
Theorem ensure_adds_only_text_leaves t t' p n' :
  _ensure_tiptap_content t = Returns t' →
  node_at t' p = Some n' → node_at t p = None →
  n' = text_leaf.
Proof.
  revert t t'. induction p as [|i p IH]; intros t t' Ht Hn' Hn; [done|].
  destruct (is_dict t) eqn:Hdict.
  2:{ rewrite (ensure_leaf t Hdict) in Ht. injection Ht as <-. congruence. }
  destruct t as [| | | | | |d]; try done.
  destruct (ensure_obj_inv d t' Ht) as [_ Hinv]. simpl in Hn.
  destruct (d !! "content") as [v|] eqn:Hd.
  - destruct (is_list v) eqn:Hv.
    + destruct v as [| | | | |cs|]; try done. destruct Hinv as (cs' & Hcs & ->).
      simpl in Hn'. rewrite lookup_insert_eq in Hn'.
      destruct (cs' !! i) as [c'|] eqn:Hi'; [|done]. simpl in Hn'.
      destruct (Forall2_lookup_r _ _ _ _ _ Hcs Hi') as (c & Hi & Hc).
      rewrite Hi in Hn. simpl in Hn. by apply (IH c c').
    + assert (t' = JObj d) as -> by (destruct v; try done).
      simpl in Hn'. rewrite Hd in Hn'. by destruct v.
  - subst t'. destruct (is_container d).
    + simpl in Hn'. rewrite lookup_insert_eq in Hn'. unfold synthesized in Hn'.
      destruct (is_inline d); [|by destruct i].
      destruct i as [|i]; [|by destruct i]. simpl in Hn'.
      destruct p as [|j p]; [by injection Hn'|done].
    + simpl in Hn'. by rewrite Hd in Hn'.
Qed.

Section store_facts.
Context `{JsonText} `{JsonPatch}.
Implicit Types (db : gmap Z row) (id now : Z) (ops : list json).

Lemma get_content_row id db1 db2 :
  db1 !! id = db2 !! id → (get_content id db1).1 = (get_content id db2).1.
Proof.
  intros Hrow. unfold get_content. rewrite Hrow.
  destruct (db2 !! id) as [[[d|raw] ?]|]; simpl; try done.
  by destruct (text_nonempty raw).
Qed.

Lemma patch_content_rows id ops now db id' :
  id ≠ id' → (patch_content id ops now db).2 !! id' = db !! id'.
Proof.
  intros Hne. rewrite patch_content_eq.
  destruct (patch_input id db) as [current|]; [|done].
  destruct (apply_patch current ops) as [new|[]]; try done.
  destruct (is_dict new); [|done]. simpl. by rewrite lookup_insert_ne.
Qed.

(** X4. Read your writes: after [patch_content] has returned a tree,
    [get_content] of the document returns that tree, provided the [json]
    module prints it to a non-empty text and parses it back. *)
Theorem patch_then_get id ops now db new_content db' :
  patch_content id ops now db = (Returns new_content, db') →
  text_nonempty (json_dumps new_content) = true →
  json_loads (json_dumps new_content) = Returns new_content →
  get_content id db' = (Returns new_content, db').
Proof.
  rewrite patch_content_eq. intros Hp Hne Hload.
  destruct (patch_input id db) as [current|]; [|done].
  destruct (apply_patch current ops) as [new|[]]; try done.
  destruct (is_dict new); [|done]. injection Hp as -> <-.
  by rewrite get_content_stored, Hload.
Qed.

(** X5. Documents are independent: writing, deleting or patching one document
    leaves what [get_content] returns for every other document as it was,
    whether the operation returns or raises. *)
Theorem other_documents_untouched id id' T ops now db :
  id ≠ id' →
  (get_content id' (set_content id T now db).2).1 = (get_content id' db).1 ∧
  (get_content id' (delete_content id db).2).1 = (get_content id' db).1 ∧
  (get_content id' (patch_content id ops now db).2).1 = (get_content id' db).1.
Proof.
  intros Hne. split; [|split]; apply get_content_row.
  - simpl. by rewrite lookup_insert_ne.
  - simpl. by rewrite lookup_delete_ne.
  - by apply patch_content_rows.
Qed.



(** X8. Which exception [patch_content] raises: an exception of the normaliser
    or of [get_content], and every exception of the patch library other than
    a [JsonPatchException] (a pointer that does not resolve, for one),
    propagates as it is; a [JsonPatchException] becomes a [ValueError] that
    carries its message. In each case the table is left as it was. *)
Theorem patch_content_exceptions id ops now db :
  (∀ e, patch_input id db = Raises e →
     patch_content id ops now db = (Raises e, db)) ∧
  (∀ current kind msg,
     patch_input id db = Returns current →
     apply_patch current ops = Raises (JsonPatchException kind msg) →
     patch_content id ops now db = (Raises (patch_failed msg), db)) ∧
  (∀ current e,
     patch_input id db = Returns current →
     apply_patch current ops = Raises e →
     (∀ kind msg, e ≠ JsonPatchException kind msg) →
     patch_content id ops now db = (Raises e, db)).
Proof.
  rewrite patch_content_eq. split; [|split].
  - by intros e ->.
  - by intros current kind msg -> ->.
  - intros current e -> -> Hne. destruct e; try done. by destruct (Hne kind msg).
Qed.

(** X24. Normalising in place: a patch with no operation stores the
    normalised document, and repeating it changes nothing but the time
    stamp. The patch library is assumed to return the document of an empty
    patch, and the [json] module to print the tree to a non-empty text and
    parse it back. *)
Theorem empty_patch_idempotent id t1 t2 db t db1 :
  (∀ doc, apply_patch doc [] = Returns doc) →
  patch_content id [] t1 db = (Returns t, db1) →
  text_nonempty (json_dumps t) = true →
  json_loads (json_dumps t) = Returns t →
  patch_content id [] t2 db1 = (Returns t, <[id := stored t t2]> db).
Proof.
  intros Hnil Hp Hne Hload. rewrite patch_content_eq in Hp.
  destruct (patch_input id db) as [current|] eqn:Hin; [|done].
  rewrite Hnil in Hp. destruct (is_dict current) eqn:Hdict; [|done].
  injection Hp as -> <-.
  assert (_ensure_tiptap_content t = Returns t) as Hfix.
  { unfold patch_input in Hin.
    destruct (get_content id db) as [[stored_tree|] ?]; [|done].
    destruct (truthy stored_tree).
    - by apply (ensure_fixed stored_tree).
    - injection Hin as <-. apply ensure_empty. }
  rewrite patch_content_eq. unfold patch_input.
  rewrite get_content_stored, Hload by done.
  assert ((if truthy t then _ensure_tiptap_content t else Returns (JObj ∅))
          = Returns t) as ->.
  { destruct (truthy t) eqn:Ht; [done|].
    destruct t as [| | | | | |d]; try done. simpl in Ht.
    apply negb_false_iff, bool_decide_eq_true in Ht. by subst d. }
  rewrite Hnil, Hdict. by rewrite insert_insert_eq.
Qed.

End store_facts.

(** * Properties of the middleware *)

(** ** String operations *)

Lemma str_app_nil (s : string) : EmptyString ++ s = s.
Proof. reflexivity. Qed.

Lemma str_app_cons c (a b : string) : String c a ++ b = String c (a ++ b).
Proof. reflexivity. Qed.

Lemma str_app_assoc (a b c : string) : (a ++ b) ++ c = a ++ b ++ c.
Proof.
  induction a as [|x a IH]; [done|]. by rewrite !str_app_cons, IH.
Qed.

Lemma startswith_spec s p : startswith s p = true ↔ ∃ r, s = p ++ r.
Proof.
  revert s. induction p as [|c p IH]; intros s.
  - destruct s; (split; [by eexists|done]).
  - destruct s as [|c' s]; simpl.
    + split; [done|]. by intros [r [=]].
    + rewrite andb_true_iff, Ascii.eqb_eq, IH. split.
      * intros [-> [r ->]]. by exists r.
      * intros [r Hr]. rewrite str_app_cons in Hr. injection Hr as -> ->. eauto.
Qed.

Lemma endswith_cons c s p :
  endswith (String c s) p = String.eqb (String c s) p || endswith s p.
Proof. reflexivity. Qed.

Lemma endswith_spec s p : endswith s p = true ↔ ∃ r, s = r ++ p.
Proof.
  induction s as [|c s IH].
  - change (endswith EmptyString p) with (String.eqb EmptyString p || false).
    rewrite orb_false_r, String.eqb_eq. split.
    + intros <-. by exists EmptyString.
    + intros [[|c' r] Hr]; [done|]. by rewrite str_app_cons in Hr.
  - rewrite endswith_cons, orb_true_iff, String.eqb_eq, IH. split.
    + intros [<-|[r ->]]; [by exists EmptyString|by exists (String c r)].
    + intros [[|c' r] Hr]; [by left|].
      rewrite str_app_cons in Hr. injection Hr as -> ->. right. by exists r.
Qed.

Lemma str_contains_cons sub c s :
  str_contains sub (String c s) = startswith (String c s) sub || str_contains sub s.
Proof. reflexivity. Qed.

Lemma str_contains_spec sub s :
  str_contains sub s = true ↔ ∃ a b, s = a ++ sub ++ b.
Proof.
  induction s as [|c s IH].
  - change (str_contains sub EmptyString)
      with (startswith EmptyString sub || false).
    rewrite orb_false_r, startswith_spec. split.
    + intros [r Hr]. by exists EmptyString, r.
    + intros ([|c' a] & b & Hab); [by exists b|]. by rewrite str_app_cons in Hab.
  - rewrite str_contains_cons, orb_true_iff, startswith_spec, IH. split.
    + intros [[r Hr]|(a & b & ->)]; [by exists EmptyString, r|].
      by exists (String c a), b.
    + intros ([|c' a] & b & Hab); [left; by exists b|].
      rewrite str_app_cons in Hab. injection Hab as -> ->. right. by exists a, b.
Qed.

Lemma str_truthy_iff s : str_truthy s = true ↔ s ≠ EmptyString.
Proof. unfold str_truthy. by rewrite negb_true_iff, String.eqb_neq. Qed.

Lemma str_truthy_false s : str_truthy s = false ↔ s = EmptyString.
Proof. unfold str_truthy. by rewrite negb_false_iff, String.eqb_eq. Qed.

Lemma existsb_true {A} (f : A → bool) (l : list A) :
  existsb f l = true ↔ ∃ x, x ∈ l ∧ f x = true.
Proof.
  rewrite existsb_exists. split; intros (x & Hx & Hf); exists x;
    (split; [by apply list_elem_of_In|done]).
Qed.

(** X9. Which paths skip authentication: those that contain [/internal/]
    anywhere, and those that end with a public path (with or without a final
    slash) or start with one followed by a slash or a question mark. *)
Theorem is_public_path_iff path :
  _is_public_path path = true ↔
    (∃ a b, path = a ++ "/internal/" ++ b) ∨
    (∃ public_path, public_path ∈ PUBLIC_PATHS ∧
       ((∃ a, path = a ++ public_path) ∨
        (∃ a, path = a ++ public_path ++ "/") ∨
        (∃ b, path = public_path ++ "/" ++ b) ∨
        (∃ b, path = public_path ++ "?" ++ b))).
Proof.
  unfold _is_public_path. rewrite orb_true_iff, !existsb_true. split.
  - intros [(ip & Hip & Hc)|(pp & Hpp & Hc)].
    + left. apply list_elem_of_singleton in Hip as ->.
      by apply str_contains_spec.
    + right. exists pp. split; [done|].
      rewrite !orb_true_iff, String.eqb_eq, !endswith_spec, !startswith_spec in Hc.
      destruct Hc as [[->|[[a ->]|[a ->]]]|[[b Hb]|[b Hb]]].
      * left. by exists EmptyString.
      * left. by exists a.
      * right; left. by exists a.
      * right; right; left. exists b. by rewrite Hb, str_app_assoc.
      * right; right; right. exists b. by rewrite Hb, str_app_assoc.
  - intros [Hint|(pp & Hpp & Hc)].
    + left. exists "/internal/". split; [by apply list_elem_of_singleton|].
      by apply str_contains_spec.
    + right. exists pp. split; [done|].
      rewrite !orb_true_iff, String.eqb_eq, !endswith_spec, !startswith_spec.
      destruct Hc as [[a ->]|[[a ->]|[[b ->]|[b ->]]]].
      * left; right; left. by exists a.
      * left; right; right. by exists a.
      * right; left. exists b. by rewrite str_app_assoc.
      * right; right. exists b. by rewrite str_app_assoc.
Qed.

(** ** [dispatch] *)

Section dispatch_facts.
Context {Response : Type}.
Variable unauthorized : string → string → Response.
Variable get_container : result Container.
Implicit Types (request : Request) (call_next : @handler Response) (ctx : request_context).

Lemma opt_str_truthy_Some o :
  opt_str_truthy o = true → ∃ s, o = Some s ∧ s ≠ EmptyString.
Proof.
  destruct o as [s|]; [|done]. unfold opt_str_truthy, str_truthy.
  rewrite negb_true_iff, String.eqb_neq. eauto.
Qed.

(** When the [try] block of [dispatch] leaves with a user. *)
Lemma identify_user auth_token user_info :
  identify unauthorized get_container auth_token = Returns (inr user_info) ↔
  ∃ container r visitor user_infos,
    get_container = Returns container ∧
    introspect (hydra_adapter container) auth_token = Returns r ∧
    active r = true ∧ visitor_id r = Some visitor ∧ visitor ≠ EmptyString ∧
    batch_get_user_info_by_id (user_management_adapter container) [visitor]
      = Returns user_infos ∧
    user_infos !! visitor = Some user_info.
Proof.
  unfold identify. split.
  - destruct get_container as [container|]; [simpl|done].
    destruct (introspect _ _) as [r|] eqn:Hi; [simpl|done].
    destruct (active r) eqn:Hactive; [|done]. simpl.
    destruct (opt_str_truthy (visitor_id r)) eqn:Hv; [|done].
    apply opt_str_truthy_Some in Hv as (visitor & Hv & Hne). rewrite Hv. simpl.
    destruct (batch_get_user_info_by_id _ _) as [user_infos|] eqn:Hb; [simpl|done].
    destruct (user_infos !! visitor) as [u|] eqn:Hu; [|done].
    intros [= ->]. by exists container, r, visitor, user_infos.
  - intros (container & r & visitor & user_infos & -> & Hi & Ha & Hv & Hne & Hb & Hu).
    simpl. rewrite Hi. simpl. rewrite Ha, Hv. simpl.
    apply str_truthy_iff in Hne. rewrite Hne, Hb. simpl. by rewrite Hu.
Qed.

(** X10. A request for a public path goes to the handler as it came, with the
    context as it is; no header is read and no port is called. Whatever the
    handler does, both context variables are cleared afterwards. *)
Theorem dispatch_public request call_next ctx :
  _is_public_path (url_path request) = true →
  dispatch unauthorized get_container request call_next ctx =
    ((call_next request ctx).1, RequestContext None None).
Proof.
  intros Hp. unfold dispatch. rewrite Hp. unfold finally_clear.
  by destruct (call_next request ctx).
Qed.

(** The token is empty for the empty header and for [Bearer ] alone, and
    for no other header. *)
Lemma bearer_token_empty_iff auth_header :
  bearer_token auth_header = EmptyString ↔
    auth_header = EmptyString ∨ auth_header = "Bearer ".
Proof.
  split; [|by intros [-> | ->]].
  unfold bearer_token. destruct (startswith auth_header "Bearer ") eqn:Hs; [|auto].
  apply startswith_spec in Hs as [r ->]. intros Hr. right.
  change (str_from 7 ("Bearer " ++ r)) with r in Hr. by rewrite Hr.
Qed.

(** X11. A protected request without a token (no [Authorization] header, an
    empty one, or [Bearer ] followed by nothing) is answered with the
    needs-authentication response: the handler and the ports are not called
    and the context is untouched. *)
Theorem dispatch_without_token request call_next ctx :
  _is_public_path (url_path request) = false →
  authorization request = None ∨ authorization request = Some EmptyString ∨
    authorization request = Some "Bearer " →
  dispatch unauthorized get_container request call_next ctx =
    (Returns (needs_auth unauthorized), ctx).
Proof.
  intros Hp Hh. unfold dispatch. rewrite Hp.
  by destruct Hh as [-> | [-> | ->]].
Qed.

(** X12. A protected request whose token introspects as active with a visitor id
    that the user service knows reaches the handler. The handler finds the
    whole header in [request.state.auth_token], the user in
    [request.state] and in the user context, and the token without its
    [Bearer ] prefix in the token context; its outcome is the outcome of
    [dispatch], and both context variables are cleared afterwards. *)
Theorem dispatch_identified request call_next ctx
    auth_header container r visitor user_infos user_info :
  _is_public_path (url_path request) = false →
  authorization request = Some auth_header →
  bearer_token auth_header ≠ EmptyString →
  get_container = Returns container →
  introspect (hydra_adapter container) (bearer_token auth_header) = Returns r →
  active r = true → visitor_id r = Some visitor → visitor ≠ EmptyString →
  batch_get_user_info_by_id (user_management_adapter container) [visitor]
    = Returns user_infos →
  user_infos !! visitor = Some user_info →
  let request' := identified_request request auth_header user_info in
  let ctx' := identified_context (bearer_token auth_header) user_info in
  dispatch unauthorized get_container request call_next ctx =
    ((call_next request' ctx').1, RequestContext None None) ∧
  get_auth_token_from_request request' = Some auth_header ∧
  get_user_id_from_request request' = user_management_port.id user_info ∧
  get_user_info_from_request request' = Some user_info ∧
  get_auth_token ctx' = Some (bearer_token auth_header) ∧
  get_user_info ctx' = Some user_info ∧
  get_user_id ctx' = user_management_port.id user_info.
Proof.
  intros Hp Hh Htok Hc Hi Ha Hv Hne Hb Hu request' ctx'.
  split; [|done].
  assert (identify unauthorized get_container (bearer_token auth_header)
          = Returns (inr user_info)) as Hid.
  { apply identify_user. by exists container, r, visitor, user_infos. }
  subst request' ctx'. unfold dispatch, identified_request, identified_context.
  rewrite Hp, Hh. simpl.
  assert (auth_header ≠ EmptyString) as Hhne by (by intros ->).
  apply str_truthy_iff in Hhne, Htok. rewrite Hhne, Htok. simpl.
  rewrite Hid. unfold finally_clear.
  by destruct (call_next _ _).
Qed.

(** An early response of the [try] block is one of the middleware's. *)
Lemma identify_error auth_token error :
  identify unauthorized get_container auth_token = Returns (inl error) →
  ∃ description solution, error = unauthorized description solution.
Proof.
  unfold identify.
  destruct get_container as [container|]; [simpl|done].
  destruct (introspect _ _) as [r|]; [simpl|done].
  destruct (active r && opt_str_truthy (visitor_id r)).
  - destruct (batch_get_user_info_by_id _ _) as [user_infos|]; [simpl|done].
    destruct (user_infos !! _); [done|]. intros [= <-]. eauto.
  - intros [= <-]. eauto.
Qed.

(** X13. A protected request that presents a token is rejected unless the token
    passes every step of identification: the response is one of the
    middleware's unauthorised responses, whatever the handler is (it is not
    called). No exception of a port escapes. The rejected token stays in the
    token context; the user context is untouched. *)
Theorem dispatch_rejects_unidentified request ctx auth_header :
  _is_public_path (url_path request) = false →
  authorization request = Some auth_header →
  bearer_token auth_header ≠ EmptyString →
  ¬ (∃ container r visitor user_infos user_info,
       get_container = Returns container ∧
       introspect (hydra_adapter container) (bearer_token auth_header)
         = Returns r ∧
       active r = true ∧ visitor_id r = Some visitor ∧ visitor ≠ EmptyString ∧
       batch_get_user_info_by_id (user_management_adapter container) [visitor]
         = Returns user_infos ∧
       user_infos !! visitor = Some user_info) →
  ∃ description solution,
    ∀ call_next,
      dispatch unauthorized get_container request call_next ctx =
        (Returns (unauthorized description solution),
         TokenContext.set_token (Some (bearer_token auth_header)) ctx).
Proof.
  intros Hp Hh Htok Hnot.
  assert (auth_header ≠ EmptyString) as Hhne by (by intros ->).
  apply str_truthy_iff in Hhne, Htok.
  destruct (identify unauthorized get_container (bearer_token auth_header))
    as [[error|user_info]|e] eqn:Hid.
  - destruct (identify_error _ _ Hid) as (d & s & ->).
    exists d, s. intros call_next. unfold dispatch.
    rewrite Hp, Hh. simpl. rewrite Hhne, Htok. simpl. by rewrite Hid.
  - exfalso. apply Hnot. apply identify_user in Hid
      as (container & r & visitor & user_infos & ?).
    by exists container, r, visitor, user_infos, user_info.
  - do 2 eexists. intros call_next. unfold dispatch.
    rewrite Hp, Hh. simpl. rewrite Hhne, Htok. simpl. by rewrite Hid.
Qed.

(** X14. [dispatch] raises only what the handler raised: failures of the
    container and of the two ports are turned into responses. When it
    raises, both context variables have been cleared. *)
Theorem dispatch_raises_only_from_handler request call_next ctx e ctx' :
  dispatch unauthorized get_container request call_next ctx = (Raises e, ctx') →
  ctx' = RequestContext None None ∧
  ∃ request0 ctx0 ctx1, call_next request0 ctx0 = (Raises e, ctx1).
Proof.
  unfold dispatch.
  destruct (_is_public_path _).
  { unfold finally_clear. destruct (call_next request ctx) as [o c] eqn:Hc.
    intros [= -> <-]. split; [done|]. by exists request, ctx, c. }
  destruct (negb (opt_str_truthy _)); [done|].
  destruct (negb (str_truthy _)); [done|].
  destruct (identify _ _ _) as [[error|user_info]|]; [done| |done].
  unfold finally_clear. destruct (call_next _ _) as [o c] eqn:Hc.
  intros [= -> <-]. split; [done|]. eauto.
Qed.

End dispatch_facts.

(** * Properties of the domain models *)

(** ** [Project] *)

(** X16. After construction a project has both timestamps, the edit time
    defaulting to the creation time and the creation time to the clock; an
    editor id or editor name that was not given (or given empty) becomes the
    creator's, one that was given is kept, so that an editor is empty only if
    the creator is; the other attributes are the arguments. Running the
    initialisation again, at any later time, changes nothing. *)
Theorem project_post_init now now' p :
  let p' := project.__post_init__ now p in
  project.created_at p' = Some (default now (project.created_at p)) ∧
  project.edited_at p' =
    Some (default (default now (project.created_at p)) (project.edited_at p)) ∧
  (project.editor_id p = EmptyString → project.editor_id p' = project.creator_id p) ∧
  (project.editor_id p ≠ EmptyString → project.editor_id p' = project.editor_id p) ∧
  (project.editor_name p = EmptyString →
     project.editor_name p' = project.creator_name p) ∧
  (project.editor_name p ≠ EmptyString →
     project.editor_name p' = project.editor_name p) ∧
  (project.creator_id p ≠ EmptyString → project.editor_id p' ≠ EmptyString) ∧
  (project.creator_name p ≠ EmptyString → project.editor_name p' ≠ EmptyString) ∧
  (project.id p', project.name p', project.description p',
   project.creator_id p', project.creator_name p') =
    (project.id p, project.name p, project.description p,
     project.creator_id p, project.creator_name p) ∧
  project.__post_init__ now' p' = p'.
Proof.
  destruct p as [i n d ci cn ca ei en ea]. simpl.
  split; [by destruct ca|]. split; [by destruct ca, ea|].
  split. { by intros ->. }
  split. { intros He%str_truthy_iff. by rewrite He. }
  split. { by intros ->. }
  split. { intros He%str_truthy_iff. by rewrite He. }
  split. { intros Hc. destruct (str_truthy ei) eqn:He; simpl; [by apply str_truthy_iff|done]. }
  split. { intros Hc. destruct (str_truthy en) eqn:He; simpl; [by apply str_truthy_iff|done]. }
  split; [done|].
  unfold project.__post_init__. simpl. f_equal.
  - by destruct ca.
  - destruct (str_truthy ei) eqn:He; simpl; [by rewrite He|].
    by destruct (str_truthy ci).
  - destruct (str_truthy en) eqn:He; simpl; [by rewrite He|].
    by destruct (str_truthy cn).
  - by destruct ca, ea.
Qed.

(** On text without continuation bytes, ASCII text for one, [len] is the
    number of bytes; on any text it is at most that. *)
Lemma py_len_le s : (py_len s ≤ String.length s)%nat.
Proof. induction s as [|c s IH]; simpl; [done|]. destruct (is_continuation c); lia. Qed.

(** [validate] accepts exactly the projects whose name is not empty and has at
    most 128 characters and whose description, if any, has at most 400. *)
Lemma project_validate_iff p :
  project.validate p = Returns () ↔
    project.name p ≠ EmptyString ∧
    (py_len (project.name p) ≤ 128)%nat ∧
    (∀ d, project.description p = Some d → py_len d ≤ 400)%nat.
Proof.
  unfold project.validate.
  destruct (str_truthy (project.name p)) eqn:Hn; simpl.
  - apply str_truthy_iff in Hn.
    destruct (Nat.ltb_spec 128 (py_len (project.name p))).
    { split; [done|]. lia. }
    destruct (project.description p) as [d|]; simpl.
    + destruct (Nat.ltb_spec 400 (py_len d)).
      * rewrite andb_true_r. destruct (str_truthy d) eqn:Hd.
        -- split; [done|]. intros (_ & _ & Hd'). specialize (Hd' d eq_refl). lia.
        -- apply str_truthy_false in Hd. subst d. simpl in *. lia.
      * rewrite andb_false_r. split; [|done]. intros _. split; [done|].
        split; [lia|]. by intros ? [= <-].
    + split; [|done]. intros _. split; [done|]. split; [lia|done].
  - apply str_truthy_false in Hn. rewrite Hn. simpl. split; [done|].
    by intros [? _].
Qed.

(** X17. [update] replaces exactly the attributes that are given and stamps the
    edit time: a name, description, editor id or editor name that is given is
    the attribute afterwards, one that is not given leaves the attribute as it
    was; it never touches the id, the creator or the creation time, and it
    cannot reset a description to none. Two updates in a row are one update
    with the later value of each attribute that either of them gives, at the
    later time. *)
Theorem project_update_compose n1 d1 ei1 en1 t1 n2 d2 ei2 en2 t2 p :
  project.update n2 d2 ei2 en2 t2 (project.update n1 d1 ei1 en1 t1 p) =
    project.update (later_given n2 n1) (later_given d2 d1)
                   (later_given ei2 ei1) (later_given en2 en1) t2 p ∧
  (let p' := project.update n1 d1 ei1 en1 t1 p in
   (project.id p', project.creator_id p', project.creator_name p',
    project.created_at p') =
     (project.id p, project.creator_id p, project.creator_name p,
      project.created_at p) ∧
   project.edited_at p' = Some t1 ∧
   (project.description p ≠ None → project.description p' ≠ None) ∧
   (∀ x, n1 = Some x → project.name p' = x) ∧
   (n1 = None → project.name p' = project.name p) ∧
   (∀ x, d1 = Some x → project.description p' = Some x) ∧
   (d1 = None → project.description p' = project.description p) ∧
   (∀ x, ei1 = Some x → project.editor_id p' = x) ∧
   (ei1 = None → project.editor_id p' = project.editor_id p) ∧
   (∀ x, en1 = Some x → project.editor_name p' = x) ∧
   (en1 = None → project.editor_name p' = project.editor_name p)).
Proof.
  split.
  - unfold project.update. simpl. f_equal.
    + by destruct n2, n1.
    + by destruct d2, d1.
    + by destruct ei2, ei1.
    + by destruct en2, en1.
  - simpl. split; [done|]. split; [done|]. split; [by destruct d1|].
    split_and!; try (by intros ->); by intros x ->.
Qed.

(** X18. [update] does not validate: an update that gives the empty name yields a
    project that [validate] rejects, and so does one that gives a name of more
    than 128 characters or a description of more than 400; a valid project
    stays valid under an update whose name, if given, is not empty and has at
    most 128 characters and whose description, if given, has at most 400.
    The limits count characters, not bytes. *)
Theorem project_update_validity n d ei en t p :
  (n = Some EmptyString →
     ∃ msg, project.validate (project.update n d ei en t p) = Raises (ValueError msg)) ∧
  (∀ x, n = Some x → (128 < py_len x)%nat →
     ∃ msg, project.validate (project.update n d ei en t p) = Raises (ValueError msg)) ∧
  (∀ x, d = Some x → (400 < py_len x)%nat →
     ∃ msg, project.validate (project.update n d ei en t p) = Raises (ValueError msg)) ∧
  (project.validate p = Returns () →
   (∀ x, n = Some x → x ≠ EmptyString ∧ (py_len x ≤ 128)%nat) →
   (∀ x, d = Some x → py_len x ≤ 400)%nat →
   project.validate (project.update n d ei en t p) = Returns ()).
Proof.
  assert (∀ q, project.validate q ≠ Returns () →
               ∃ msg, project.validate q = Raises (ValueError msg)) as Hraise.
  { intros q Hq. unfold project.validate in *. repeat case_match; eauto; done. }
  split; [|split; [|split]].
  - intros ->. unfold project.validate. simpl. eauto.
  - intros x -> Hlen. apply Hraise. rewrite project_validate_iff. simpl.
    intros (_ & Hle & _). lia.
  - intros x -> Hlen. apply Hraise. rewrite project_validate_iff. simpl.
    intros (_ & _ & Hd). specialize (Hd x eq_refl). lia.
  - rewrite !project_validate_iff. intros (Hn & Hl & Hd) Hn' Hd'. simpl.
    split; [|split].
    + destruct n as [x|]; simpl; [by apply Hn'|done].
    + destruct n as [x|]; simpl; [by apply Hn'|done].
    + intros x. destruct d as [y|]; [intros [= <-]; by apply Hd'|apply Hd].
Qed.

(** ** [DictionaryEntry] *)

(** X19. After construction an entry has both timestamps; an editor that was not
    given is the creator, while an editor given as the empty string is kept
    (unlike [Project]); running the initialisation again changes nothing. *)
Theorem dictionary_post_init now now' e :
  let e' := dictionary.__post_init__ now e in
  dictionary.created_at e' = Some (default now (dictionary.created_at e)) ∧
  dictionary.edited_at e' =
    Some (default (default now (dictionary.created_at e)) (dictionary.edited_at e)) ∧
  dictionary.editor_id e' =
    later_given (dictionary.editor_id e) (dictionary.creator_id e) ∧
  dictionary.editor_name e' =
    later_given (dictionary.editor_name e) (dictionary.creator_name e) ∧
  (dictionary.id e', dictionary.project_id e', dictionary.term e',
   dictionary.definition e', dictionary.creator_id e', dictionary.creator_name e') =
    (dictionary.id e, dictionary.project_id e, dictionary.term e,
     dictionary.definition e, dictionary.creator_id e, dictionary.creator_name e) ∧
  dictionary.__post_init__ now' e' = e'.
Proof.
  destruct e as [i pid tm df ci cn ca ei en ea]. simpl.
  split; [by destruct ca|]. split; [by destruct ca, ea|].
  split; [by destruct ei|]. split; [by destruct en|]. split; [done|].
  unfold dictionary.__post_init__. simpl. f_equal.
  - by destruct ca.
  - by destruct ei, ci.
  - by destruct en, cn.
  - by destruct ca, ea.
Qed.

(** [validate] accepts exactly the entries whose term is not empty and has at
    most 255 characters, whose definition is not empty and whose project id is
    not 0 (a negative id passes). *)
Lemma dictionary_validate_iff e :
  dictionary.validate e = Returns () ↔
    dictionary.term e ≠ EmptyString ∧
    (py_len (dictionary.term e) ≤ 255)%nat ∧
    dictionary.definition e ≠ EmptyString ∧
    dictionary.project_id e ≠ 0%Z.
Proof.
  unfold dictionary.validate.
  destruct (str_truthy (dictionary.term e)) eqn:Ht; simpl.
  - apply str_truthy_iff in Ht.
    destruct (Nat.ltb_spec 255 (py_len (dictionary.term e))).
    { split; [done|]. lia. }
    destruct (str_truthy (dictionary.definition e)) eqn:Hd; simpl.
    + apply str_truthy_iff in Hd.
      destruct (Z.eqb_spec (dictionary.project_id e) 0).
      * split; [done|]. by intros (_ & _ & _ & ?).
      * split; [|done]. intros _. split; [done|]. split; [lia|done].
    + apply str_truthy_false in Hd. split; [done|]. by intros (_ & _ & ? & _).
  - apply str_truthy_false in Ht. rewrite Ht. simpl. split; [done|].
    by intros [? _].
Qed.

(** X20. [update] replaces exactly the attributes that are given and stamps the
    edit time: a term, definition, editor id or editor name that is given is
    the attribute afterwards, one that is not given leaves the attribute as it
    was; the id, the project, the creator and the creation time are never
    touched. Two updates in a row are one update with the later value of each
    attribute, at the later time. *)
Theorem dictionary_update_compose tm1 df1 ei1 en1 t1 tm2 df2 ei2 en2 t2 e :
  dictionary.update tm2 df2 ei2 en2 t2 (dictionary.update tm1 df1 ei1 en1 t1 e) =
    dictionary.update (later_given tm2 tm1) (later_given df2 df1)
                      (later_given ei2 ei1) (later_given en2 en1) t2 e ∧
  (let e' := dictionary.update tm1 df1 ei1 en1 t1 e in
   (dictionary.id e', dictionary.project_id e', dictionary.creator_id e',
    dictionary.creator_name e', dictionary.created_at e') =
     (dictionary.id e, dictionary.project_id e, dictionary.creator_id e,
      dictionary.creator_name e, dictionary.created_at e) ∧
   dictionary.edited_at e' = Some t1 ∧
   (∀ x, tm1 = Some x → dictionary.term e' = x) ∧
   (tm1 = None → dictionary.term e' = dictionary.term e) ∧
   (∀ x, df1 = Some x → dictionary.definition e' = x) ∧
   (df1 = None → dictionary.definition e' = dictionary.definition e) ∧
   (∀ x, ei1 = Some x → dictionary.editor_id e' = Some x) ∧
   (ei1 = None → dictionary.editor_id e' = dictionary.editor_id e) ∧
   (∀ x, en1 = Some x → dictionary.editor_name e' = Some x) ∧
   (en1 = None → dictionary.editor_name e' = dictionary.editor_name e)).
Proof.
  split.
  - unfold dictionary.update. simpl. f_equal.
    + by destruct tm2, tm1.
    + by destruct df2, df1.
    + by destruct ei2, ei1.
    + by destruct en2, en1.
  - simpl. split; [done|]. split; [done|].
    split_and!; try (by intros ->); by intros x ->.
Qed.

(** X21. [update] does not validate: giving the empty term or the empty
    definition yields an entry that [validate] rejects, and so does a term of
    more than 255 characters; a valid entry stays valid under an update whose
    term, if given, is not empty and has at most 255 characters and whose
    definition, if given, is not empty. The limit counts characters, not
    bytes. *)
Theorem dictionary_update_validity tm df ei en t e :
  (tm = Some EmptyString ∨ df = Some EmptyString →
     ∃ msg, dictionary.validate (dictionary.update tm df ei en t e)
            = Raises (ValueError msg)) ∧
  (∀ x, tm = Some x → (255 < py_len x)%nat →
     ∃ msg, dictionary.validate (dictionary.update tm df ei en t e)
            = Raises (ValueError msg)) ∧
  (dictionary.validate e = Returns () →
   (∀ x, tm = Some x → x ≠ EmptyString ∧ (py_len x ≤ 255)%nat) →
   (∀ x, df = Some x → x ≠ EmptyString) →
   dictionary.validate (dictionary.update tm df ei en t e) = Returns ()).
Proof.
  assert (∀ q, dictionary.validate q ≠ Returns () →
               ∃ msg, dictionary.validate q = Raises (ValueError msg)) as Hraise.
  { intros q Hq. unfold dictionary.validate in *. repeat case_match; eauto; done. }
  split; [|split].
  - intros Hempty. apply Hraise. rewrite dictionary_validate_iff. simpl.
    intros (Ht & _ & Hd & _). by destruct Hempty as [-> | ->].
  - intros x -> Hlen. apply Hraise. rewrite dictionary_validate_iff. simpl.
    intros (_ & Hle & _). lia.
  - rewrite !dictionary_validate_iff. intros (Ht & Hl & Hd & Hp) Ht' Hd'. simpl.
    split; [|split; [|split; [|done]]].
    + destruct tm as [x|]; simpl; [by apply Ht'|done].
    + destruct tm as [x|]; simpl; [by apply Ht'|done].
    + destruct df as [x|]; simpl; [by apply Hd'|done].
Qed.

(** X22. [to_dict] of a constructed entry has the ten members of the class, with
    both timestamps as text (never null) and, when no editor was given, the
    creator as editor. *)
Theorem dictionary_to_dict isoformat now e :
  let e' := dictionary.__post_init__ now e in
  ∃ d, dictionary.to_dict isoformat e' = JObj d ∧
    dom d = list_to_set ["id"; "project_id"; "term"; "definition"; "creator_id";
                         "creator_name"; "created_at"; "editor_id";
                         "editor_name"; "edited_at"] ∧
    d !! "created_at" =
      Some (JStr (isoformat (default now (dictionary.created_at e)))) ∧
    d !! "edited_at" =
      Some (JStr (isoformat (default (default now (dictionary.created_at e))
                                     (dictionary.edited_at e)))) ∧
    d !! "editor_id" =
      Some (dictionary.json_opt_str
              (later_given (dictionary.editor_id e) (dictionary.creator_id e))) ∧
    d !! "term" = Some (JStr (dictionary.term e)) ∧
    d !! "definition" = Some (JStr (dictionary.definition e)).
Proof.
  intros e'. eexists. split; [reflexivity|].
  split; [by rewrite dom_list_to_map_L|].
  destruct e as [i pid tm df ci cn ca ei en ea]. simpl.
  split; [by destruct ca|]. split; [by destruct ca, ea|].
  split; [by destruct ei|]. done.
Qed.

(** ** The request context *)

(** X15. The getters of the request context: a value that was set is the value
    read; the token and the user are independent of each other; with no user
    in the context (in particular after [clear_user_info]) the id and the
    name are the empty string, and with a user they are the user's id and
    display name. *)
Theorem context_getters token user_info ctx :
  get_auth_token (TokenContext.set_token token ctx) = token ∧
  get_user_info (TokenContext.set_token token ctx) = get_user_info ctx ∧
  get_user_info (UserContext.set_user_info user_info ctx) = user_info ∧
  get_auth_token (UserContext.set_user_info user_info ctx) = get_auth_token ctx ∧
  get_auth_token (TokenContext.clear_token ctx) = None ∧
  get_user_id (UserContext.clear_user_info ctx) = EmptyString ∧
  get_user_name (UserContext.clear_user_info ctx) = EmptyString ∧
  get_user_id (UserContext.set_user_info user_info ctx) =
    from_option user_management_port.id EmptyString user_info ∧
  get_user_name (UserContext.set_user_info user_info ctx) =
    from_option user_management_port.vision_name EmptyString user_info.
Proof.
  split_and!; try done; destruct user_info as [u|]; try done.
  unfold get_user_name. simpl.
  destruct (str_truthy _) eqn:Hv; [done|]. by apply str_truthy_false in Hv.
Qed.

(** ** The base URL of the user-management adapter *)

Lemma rstrip_slash_slash s : rstrip_slash (s ++ "/") = rstrip_slash s.
Proof.
  induction s as [|c s IH]; [done|].
  rewrite str_app_cons. simpl. by rewrite IH.
Qed.

Lemma rstrip_slash_not_endswith s : endswith (rstrip_slash s) "/" = false.
Proof.
  apply not_true_iff_false. rewrite endswith_spec. intros [r Hr].
  pose proof (rstrip_slash_slash r) as Hs.
  assert (rstrip_slash (rstrip_slash s) = rstrip_slash s) as Hidem.
  { clear. induction s as [|c s IH]; [done|]. simpl.
    destruct (String.eqb_spec (rstrip_slash s) EmptyString) as [He|He]; simpl.
    - destruct (Ascii.eqb_spec c "/"%char); [done|]. simpl.
      rewrite He. simpl. by destruct (Ascii.eqb_spec c "/"%char).
    - simpl. rewrite IH.
      by destruct (String.eqb_spec (rstrip_slash s) EmptyString). }
  rewrite Hr, Hs in Hidem.
  assert (String.length (rstrip_slash r) ≤ String.length r)%nat as Hlen.
  { clear. induction r as [|c r IH]; [done|]. simpl.
    destruct (_ && _); simpl; lia. }
  rewrite Hidem in Hlen. clear -Hlen.
  assert (∀ a b, String.length (a ++ b) = String.length a + String.length b)%nat
    as Happ.
  { intros a b. induction a as [|c a IH]; [done|].
    rewrite str_app_cons. simpl. lia. }
  rewrite Happ in Hlen. simpl in Hlen. lia.
Qed.

(** X23. The base URL does not depend on trailing slashes of the configured URL:
    the configured part ends without a slash, it is a prefix of the
    configured URL, and configured URLs that differ only in trailing slashes
    give the same base URL. *)
Theorem user_management_base_url_slashes url :
  user_management_base_url (url ++ "/") = user_management_base_url url ∧
  (∃ host, user_management_base_url url = host ++ "/api/user-management" ∧
     endswith host "/" = false ∧ startswith url host = true).
Proof.
  unfold user_management_base_url. split; [by rewrite rstrip_slash_slash|].
  exists (rstrip_slash url). split; [done|].
  split; [apply rstrip_slash_not_endswith|].
  induction url as [|c url IH]; [done|]. simpl.
  destruct (_ && _); [done|]. simpl. by rewrite Ascii.eqb_refl.
Qed.

(** * The further theorems at concrete inputs *)

Lemma dispatch_public_witness :
  _is_public_path "/api/studio/health" = true ∧
  dispatch Denied demo_container
    (demo_request "/api/studio/health" (Some "Bearer stale")) failing_handler
    (RequestContext (Some "old") None) =
    (Raises (ValueError "handler failed"), RequestContext None None).
Proof.
  split; [reflexivity|].
  apply (dispatch_public Denied demo_container
           (demo_request "/api/studio/health" (Some "Bearer stale"))).
  reflexivity.
Defined.

Lemma dispatch_without_token_witness :
  _is_public_path "/api/projects" = false ∧
  dispatch Denied demo_container (demo_request "/api/projects" (Some "Bearer "))
    demo_handler no_context =
    (Returns (needs_auth Denied), no_context).
Proof.
  split; [reflexivity|].
  apply (dispatch_without_token Denied demo_container
           (demo_request "/api/projects" (Some "Bearer "))); [reflexivity|auto].
Defined.

Lemma dispatch_identified_witness :
  dispatch Denied demo_container
    (demo_request "/api/projects" (Some "Bearer good")) demo_handler no_context =
    (Returns (Served "u-1"), RequestContext None None).
Proof.
  apply (dispatch_identified Denied demo_container
           (demo_request "/api/projects" (Some "Bearer good")) demo_handler
           no_context "Bearer good"
           {| hydra_adapter := demo_hydra;
              user_management_adapter := demo_user_management |}
           {| active := true; visitor_id := Some "u-1"; visitor_typ := None |}
           "u-1" {["u-1" := demo_user]} demo_user); done.
Defined.

Lemma dispatch_rejects_unidentified_witness :
  ∃ description solution,
    ∀ call_next,
      dispatch Denied demo_container
        (demo_request "/api/projects" (Some "Bearer down")) call_next no_context =
        (Returns (Denied description solution),
         RequestContext (Some "down") None).
Proof.
  apply (dispatch_rejects_unidentified Denied demo_container
           (demo_request "/api/projects" (Some "Bearer down")) no_context
           "Bearer down"); [reflexivity|reflexivity|discriminate|].
  intros (container & r & visitor & user_infos & user_info
          & [= <-] & Hi & _). discriminate.
Defined.

Lemma dispatch_raises_only_from_handler_witness :
  dispatch Denied demo_container
    (demo_request "/api/projects" (Some "good")) failing_handler no_context =
    (Raises (ValueError "handler failed"), RequestContext None None) ∧
  ∃ request0 ctx0 ctx1,
    failing_handler request0 ctx0 = (Raises (ValueError "handler failed"), ctx1).
Proof.
  split; [reflexivity|].
  apply (dispatch_raises_only_from_handler Denied demo_container
           (demo_request "/api/projects" (Some "good")) failing_handler
           no_context (ValueError "handler failed") (RequestContext None None)).
  reflexivity.
Defined.

Lemma project_update_validity_witness :
  (py_len cjk_name = 43 ∧ String.length cjk_name = 129)%nat ∧
  project.validate demo_project = Returns () ∧
  project.validate
    (project.update (Some cjk_name) None (Some "u-2") None 20 demo_project) =
    Returns () ∧
  ∃ msg, project.validate
           (project.update (Some (str_repeat 129 "a")) None None None 20
              demo_project) = Raises (ValueError msg).
Proof.
  split; [split; vm_compute; reflexivity|]. split; [reflexivity|]. split.
  - apply (project_update_validity (Some cjk_name) None (Some "u-2") None 20
             demo_project); [reflexivity| |done].
    intros x [= <-]. split; [done|]. vm_compute. lia.
  - apply (proj1 (proj2 (project_update_validity
                            (Some (str_repeat 129 "a")) None None None 20
                            demo_project)) _ eq_refl).
    vm_compute. lia.
Defined.

Lemma dictionary_update_validity_witness :
  (py_len cjk_term = 100 ∧ String.length cjk_term = 300)%nat ∧
  dictionary.validate demo_entry = Returns () ∧
  dictionary.validate
    (dictionary.update (Some cjk_term) None None None 20 demo_entry) = Returns () ∧
  ∃ msg, dictionary.validate
           (dictionary.update (Some (str_repeat 256 "a")) None None None 20
              demo_entry) = Raises (ValueError msg).
Proof.
  split; [split; vm_compute; reflexivity|]. split; [reflexivity|]. split.
  - apply (dictionary_update_validity (Some cjk_term) None None None 20
             demo_entry); [reflexivity| |done].
    intros x [= <-]. split; [done|]. vm_compute. lia.
  - apply (proj1 (proj2 (dictionary_update_validity
                            (Some (str_repeat 256 "a")) None None None 20
                            demo_entry)) _ eq_refl).
    vm_compute. lia.
Defined.

Lemma ensure_adds_only_text_leaves_witness :
  _ensure_tiptap_content doc_A = Returns doc_A_normalized ∧
  node_at doc_A [0; 0]%nat = None ∧
  ∀ n', node_at doc_A_normalized [0; 0]%nat = Some n' → n' = text_leaf.
Proof.
  split; [evaluate|]. split; [evaluate|]. intros n' Hn'.
  apply (ensure_adds_only_text_leaves doc_A doc_A_normalized [0; 0]%nat n');
    [evaluate|done|evaluate].
Defined.

Lemma patch_then_get_witness :
  @patch_content tree_text rfc6902.patch 7 patch_A 5 (table_with doc_A) =
    (Returns result_A, <[7%Z := @stored tree_text result_A 5]> (table_with doc_A)) ∧
  @get_content tree_text 7
    (<[7%Z := @stored tree_text result_A 5]> (table_with doc_A)) =
    (Returns result_A, <[7%Z := @stored tree_text result_A 5]> (table_with doc_A)).
Proof.
  split; [evaluate|].
  apply (@patch_then_get tree_text rfc6902.patch 7 patch_A 5 (table_with doc_A));
    [evaluate|reflexivity..].
Defined.

Lemma other_documents_untouched_witness :
  7%Z ≠ 8%Z ∧
  (@get_content tree_text 8
     (@patch_content tree_text rfc6902.patch 7 patch_A 5 (table_with doc_A)).2).1 =
    (@get_content tree_text 8 (table_with doc_A)).1.
Proof.
  split; [done|].
  apply (@other_documents_untouched tree_text rfc6902.patch 7 8 JNull patch_A 5
           (table_with doc_A)). done.
Defined.


Lemma patch_content_exceptions_witness :
  @patch_input tree_text 7 (table_with doc_empty) = Returns doc_empty ∧
  @apply_patch rfc6902.patch doc_empty patch_A =
    Raises (JsonPointerException "index '0' is out of bounds") ∧
  @patch_content tree_text rfc6902.patch 7 patch_A 5 (table_with doc_empty) =
    (Raises (JsonPointerException "index '0' is out of bounds"),
     table_with doc_empty).
Proof.
  split; [evaluate|]. split; [evaluate|].
  apply (@patch_content_exceptions tree_text rfc6902.patch 7 patch_A 5
           (table_with doc_empty)) with (current := doc_empty);
    [evaluate|evaluate|done].
Defined.

Lemma empty_patch_idempotent_witness :
  @patch_content tree_text rfc6902.patch 7 [] 5 (table_with doc_A) =
    (Returns doc_A_normalized,
     <[7%Z := @stored tree_text doc_A_normalized 5]> (table_with doc_A)) ∧
  @patch_content tree_text rfc6902.patch 7 [] 6
    (<[7%Z := @stored tree_text doc_A_normalized 5]> (table_with doc_A)) =
    (Returns doc_A_normalized,
     <[7%Z := @stored tree_text doc_A_normalized 6]> (table_with doc_A)).
Proof.
  split; [evaluate|].
  apply (@empty_patch_idempotent tree_text rfc6902.patch 7 5 6 (table_with doc_A));
    [reflexivity|evaluate|reflexivity..].
Defined.
